(** * LaTeX template migration: a shallow embedding of [latex_migration.py]

    The development models the pure core of [LaTeXMigrator]: the marker
    scanner and the two extraction passes ([extract_sections],
    [extract_sections_content_only]), the marker locator
    ([find_section_in_template]) and the splice / post-processing steps of
    [migrate_content].  Logging, file access and the report are left out:
    they do not influence the text that is produced.

    Text is a list of characters (code points below 256, which covers
    every character the patterns of the script mention); offsets are
    natural numbers, slices are
    [take] and [drop]; Python dictionaries that are only looked up by key
    are finite maps, dictionaries that are iterated are association lists
    in insertion order. *)

From Stdlib Require Import Ascii String ZArith Lia Permutation.
From stdpp Require Import gmap strings list fin_maps sorting.

Local Open Scope nat_scope.

(** ** Characters and text *)

Abbreviation text := (list ascii).

Definition lit (s : string) : text := list_ascii_of_string s.

Definition nl : ascii := "010"%char.
Definition backslash : ascii := "\"%char.
Definition star : ascii := "*"%char.
Definition lbrace : ascii := "{"%char.
Definition rbrace : ascii := "}"%char.

(** [str.isspace] on the code points below 256. *)
Definition is_space (c : ascii) : bool :=
  let n := nat_of_ascii c in
  ((9 <=? n) && (n <=? 13)) || ((28 <=? n) && (n <=? 32))
  || (n =? 133) || (n =? 160).

(** [s.lstrip()], [s.rstrip()] and [s.strip()]. *)
Fixpoint lstrip (s : text) : text :=
  match s with
  | [] => []
  | c :: s' => if is_space c then lstrip s' else s
  end.

Fixpoint rstrip (s : text) : text :=
  match s with
  | [] => []
  | c :: s' =>
      match rstrip s' with
      | [] => if is_space c then [] else [c]
      | r => c :: r
      end
  end.

Definition strip (s : text) : text := rstrip (lstrip s).

(** [s.split('\n')]: never empty, one more piece than there are newlines. *)
Fixpoint split_nl (s : text) : list text :=
  match s with
  | [] => [[]]
  | c :: s' =>
      if Ascii.eqb c nl then [] :: split_nl s'
      else match split_nl s' with
           | [] => [[c]]
           | l :: ls => (c :: l) :: ls
           end
  end.

(** ['\n'.join(ls)]. *)
Fixpoint join_nl (ls : list text) : text :=
  match ls with
  | [] => []
  | l :: ls' =>
      match ls' with
      | [] => l
      | _ :: _ => l ++ nl :: join_nl ls'
      end
  end.

(** [l[a:b]] for non-negative [a] and [b]. *)
Definition slice {A} (a b : nat) (l : list A) : list A := take (b - a) (drop a l).

(** ** Regular expressions used by the script

    Every pattern of the script is a sequence of literals, an optional
    star and, for the scanner, one negated character class.  A pattern is
    modelled by its anchored matcher (what it matches at the start of a
    suffix); [re_search] is [re.search]: the leftmost position at which
    the matcher succeeds. *)

Fixpoint strip_prefix (pat s : text) : option text :=
  match pat with
  | [] => Some s
  | p :: pat' =>
      match s with
      | [] => None
      | c :: s' => if Ascii.eqb p c then strip_prefix pat' s' else None
      end
  end.

Fixpoint re_search {A} (m : text -> option A) (off : nat) (s : text)
  : option (nat * A) :=
  match m s with
  | Some a => Some (off, a)
  | None =>
      match s with
      | [] => None
      | _ :: s' => re_search m (S off) s'
      end
  end.

(** [re.finditer]: the non-overlapping matches from left to right; the
    matcher returns the length of its match, and [skip] counts the
    characters of the current match that are still to be passed. *)
Fixpoint re_finditer (m : text -> option nat) (skip off : nat) (s : text)
  : list (nat * nat) :=
  match skip with
  | S k =>
      match s with
      | [] => []
      | _ :: s' => re_finditer m k (S off) s'
      end
  | O =>
      match m s with
      | Some n =>
          (off, off + n) ::
          match s with
          | [] => []
          | _ :: s' => re_finditer m (pred n) (S off) s'
          end
      | None =>
          match s with
          | [] => []
          | _ :: s' => re_finditer m 0 (S off) s'
          end
      end
  end.

(** ** Marker kinds *)

Inductive level := chapter | section | subsection | subsubsection | paragraph.

Global Instance level_eq_dec : EqDecision level.
Proof. solve_decision. Defined.

Definition level_name (k : level) : text :=
  match k with
  | chapter => lit "chapter"
  | section => lit "section"
  | subsection => lit "subsection"
  | subsubsection => lit "subsubsection"
  | paragraph => lit "paragraph"
  end.

(** The keys of [sections_pattern], in the order the dictionary is built
    and therefore iterated. *)
Definition sections_pattern : list level :=
  [chapter; section; subsection; subsubsection; paragraph].

Definition _get_section_level_rank (k : level) : nat :=
  match k with
  | chapter => 0
  | section => 1
  | subsection => 2
  | subsubsection => 3
  | paragraph => 4
  end.

(** The characters before the first closing brace, when there is one:
    what [[^}]*\}] consumes, without the brace. *)
Fixpoint until_rbrace (body : text) : option text :=
  match body with
  | [] => None
  | c :: body' =>
      if Ascii.eqb c rbrace then Some []
      else match until_rbrace body' with
           | Some t => Some (c :: t)
           | None => None
           end
  end.

(** The tail [\{([^}]+)\}] of a scanner pattern: returns group 2. *)
Definition match_braced_title (s : text) : option text :=
  match s with
  | c :: body =>
      if Ascii.eqb c lbrace then
        match until_rbrace body with
        | Some (c' :: t) => Some (c' :: t)
        | _ => None
        end
      else None
  | [] => None
  end.

(** [\\<kind>(\*?)\{([^}]+)\}] anchored at [s]: the optional star is
    greedy, with the star-less alternative tried on failure. *)
Definition match_marker (k : level) (s : text) : option text :=
  match strip_prefix (backslash :: level_name k) s with
  | None => None
  | Some r =>
      match r with
      | c :: r1 =>
          if Ascii.eqb c star then
            match match_braced_title r1 with
            | Some t => Some t
            | None => match_braced_title r
            end
          else match_braced_title r
      | [] => match_braced_title r
      end
  end.

(** [sections_pattern[k].search(line)] *)
Definition search_marker (k : level) (line : text) : option (nat * text) :=
  re_search (match_marker k) 0 line.

(** ** Marker scanner (first pass of both extraction functions) *)

Record occurrence := {
  occ_title : text;
  occ_level : level;
  occ_rank : nat;
  occ_line_idx : nat;
  occ_line : text
}.

(** The inner [for level, pattern in self.sections_pattern.items()] with
    its [break] at the first kind that matches. *)
Fixpoint first_marker (ks : list level) (idx : nat) (line : text)
  : option occurrence :=
  match ks with
  | [] => None
  | k :: ks' =>
      match search_marker k line with
      | Some (_, t) =>
          Some {| occ_title := strip t;
                  occ_level := k;
                  occ_rank := _get_section_level_rank k;
                  occ_line_idx := idx;
                  occ_line := strip line |}
      | None => first_marker ks' idx line
      end
  end.

Fixpoint scan_sections (idx : nat) (lines : list text) : list occurrence :=
  match lines with
  | [] => []
  | line :: rest =>
      match first_marker sections_pattern idx line with
      | Some o => o :: scan_sections (S idx) rest
      | None => scan_sections (S idx) rest
      end
  end.

(** ** Extraction (second pass) *)

Record section_info := {
  content : text;
  info_level : level;
  info_line : text;
  info_rank : nat
}.

(** End boundary of [extract_sections]: the first later occurrence whose
    rank is at most the current one, else [len(lines)]. *)
Fixpoint full_end (current_rank : nat) (later : list occurrence) (dflt : nat)
  : nat :=
  match later with
  | [] => dflt
  | o :: later' =>
      if occ_rank o <=? current_rank then occ_line_idx o
      else full_end current_rank later' dflt
  end.

(** End boundary of [extract_sections_content_only]: the very next
    occurrence, else [len(lines)]. *)
Definition content_only_end (current_rank : nat) (later : list occurrence)
  (dflt : nat) : nat :=
  match later with
  | [] => dflt
  | o :: _ => occ_line_idx o
  end.

Definition section_entry (find_end : nat -> list occurrence -> nat -> nat)
  (lines : list text) (o : occurrence) (later : list occurrence)
  : section_info :=
  let start_idx := occ_line_idx o in
  let end_idx := find_end (occ_rank o) later (length lines) in
  {| content := strip (join_nl (slice (S start_idx) end_idx lines));
     info_level := occ_level o;
     info_line := occ_line o;
     info_rank := occ_rank o |}.

(** The loop [for i, section in enumerate(all_sections)]: [later] is
    [all_sections[i+1:]], and [sections[title] = ...] overwrites. *)
Fixpoint second_pass (find_end : nat -> list occurrence -> nat -> nat)
  (lines : list text) (all_sections : list occurrence)
  (sections : gmap text section_info) : gmap text section_info :=
  match all_sections with
  | [] => sections
  | o :: later =>
      second_pass find_end lines later
        (<[occ_title o := section_entry find_end lines o later]> sections)
  end.

Definition extract_sections (latex_content : text) : gmap text section_info :=
  let lines := split_nl latex_content in
  second_pass full_end lines (scan_sections 0 lines) ∅.

Definition extract_sections_content_only (latex_content : text)
  : gmap text section_info :=
  let lines := split_nl latex_content in
  second_pass content_only_end lines (scan_sections 0 lines) ∅.

(** ** Marker locator: [find_section_in_template] *)

(** A literal pattern tail anchored at [s]; [n] is the number of
    characters already matched, the result the length of the whole match. *)
Definition match_literal (pat : text) (n : nat) (s : text) : option nat :=
  match strip_prefix pat s with
  | Some _ => Some (n + length pat)
  | None => None
  end.

(** [\\<kind>\*?\{<re.escape(title)>\}] anchored at [s]: the length of the
    match. *)
Definition match_title (k : level) (section_title : text) (s : text)
  : option nat :=
  let cmd := backslash :: level_name k in
  let tail := lbrace :: section_title ++ [rbrace] in
  match strip_prefix cmd s with
  | None => None
  | Some r =>
      match r with
      | c :: r1 =>
          if Ascii.eqb c star then
            match match_literal tail (S (length cmd)) r1 with
            | Some n => Some n
            | None => match_literal tail (length cmd) r
            end
          else match_literal tail (length cmd) r
      | [] => match_literal tail (length cmd) r
      end
  end.

Definition end_document : text := lit "\end{document}".

(** [\\end\{document\}] anchored at [s]. *)
Definition match_end_document (s : text) : option nat :=
  match_literal end_document 0 s.

(** The loop over [self.sections_pattern.items()] inside the line scan of
    the locator.  It has no [break]: every kind whose pattern matches the
    line is examined until one says stop. *)
Fixpoint should_stop_at (include_children : bool) (current_rank : nat)
  (ks : list level) (line : text) : bool :=
  match ks with
  | [] => false
  | check_level :: ks' =>
      match search_marker check_level line with
      | Some _ =>
          let check_rank := _get_section_level_rank check_level in
          let should_stop :=
            if include_children then check_rank <=? current_rank else true in
          if should_stop then true
          else should_stop_at include_children current_rank ks' line
      | None => should_stop_at include_children current_rank ks' line
      end
  end.

(** [for line_idx, line in enumerate(lines)]: [todo] is [lines[line_idx:]];
    the result is [end_pos]. *)
Fixpoint scan_end (include_children : bool) (current_rank start_pos : nat)
  (lines : list text) (dflt : nat) (line_idx : nat) (todo : list text) : nat :=
  match todo with
  | [] => dflt
  | line :: todo' =>
      match re_search match_end_document 0 line with
      | Some _ => start_pos + length (join_nl (take line_idx lines))
      | None =>
          if should_stop_at include_children current_rank sections_pattern line
          then start_pos + length (join_nl (take line_idx lines))
          else scan_end include_children current_rank start_pos lines dflt
                 (S line_idx) todo'
      end
  end.

(** The loop [for pattern, level in patterns] with its early return. *)
Fixpoint find_with_patterns (ks : list level) (template_content : text)
  (section_title : text) (include_children : bool)
  : option (nat * nat * level) :=
  match ks with
  | [] => None
  | k :: ks' =>
      match re_search (match_title k section_title) 0 template_content with
      | Some (match_start, n) =>
          let start_pos := match_start + n in
          let current_rank := _get_section_level_rank k in
          let remaining_content := drop start_pos template_content in
          let lines := split_nl remaining_content in
          Some (start_pos,
                scan_end include_children current_rank start_pos lines
                  (length template_content) 0 lines,
                k)
      | None =>
          find_with_patterns ks' template_content section_title
            include_children
      end
  end.

Definition find_section_in_template (template_content section_title : text)
  (include_children : bool) : option (nat * nat * level) :=
  find_with_patterns sections_pattern template_content section_title
    include_children.

(** ** Splice engine and post-processing: [migrate_content] *)

Inductive replacement_type := type_section_mapping | type_new_content.

Record replacement := {
  r_start : nat;
  r_end : nat;
  r_content : text;
  r_old_section : text;
  r_new_section : text;
  r_type : replacement_type
}.

Record config := {
  mapping_mode : option text;
  section_mapping : list (text * text);
  new_sections_content : list (text * text)
}.

(** [self.config.get('mapping_mode', 'full_hierarchy') == 'granular'] *)
Definition is_granular (cfg : config) : bool :=
  bool_decide (default (lit "full_hierarchy") (mapping_mode cfg) = lit "granular").

Definition extract_for_mode (granular : bool) (c : text)
  : gmap text section_info :=
  if granular then extract_sections_content_only c else extract_sections c.

(** First loop: [for old_section, new_section in section_mapping.items()].
    Returns what the loop appends to [replacements]. *)
Fixpoint collect_section_mapping (old_sections : gmap text section_info)
  (new_content : text) (include_children : bool)
  (mapping : list (text * text)) : list replacement :=
  match mapping with
  | [] => []
  | (old_section, new_section) :: rest =>
      match old_sections !! old_section with
      | Some info =>
          match find_section_in_template new_content new_section
                  include_children with
          | Some (start_pos, end_pos, _) =>
              {| r_start := start_pos;
                 r_end := end_pos;
                 r_content := strip (content info);
                 r_old_section := old_section;
                 r_new_section := new_section;
                 r_type := type_section_mapping |}
              :: collect_section_mapping old_sections new_content
                   include_children rest
          | None =>
              collect_section_mapping old_sections new_content
                include_children rest
          end
      | None =>
          collect_section_mapping old_sections new_content include_children
            rest
      end
  end.

(** Second loop: [for section_title, content in new_sections_content.items()].
    Returns what it appends to [replacements] and to [sections_to_create]. *)
Fixpoint collect_new_sections (new_content : text) (include_children : bool)
  (entries : list (text * text)) : list replacement * list (text * text) :=
  match entries with
  | [] => ([], [])
  | (section_title, c) :: rest =>
      let '(reps, to_create) :=
        collect_new_sections new_content include_children rest in
      match find_section_in_template new_content section_title
              include_children with
      | Some (start_pos, end_pos, _) =>
          ({| r_start := start_pos;
              r_end := end_pos;
              r_content := strip c;
              r_old_section := lit "NEW_CONTENT";
              r_new_section := section_title;
              r_type := type_new_content |} :: reps,
           to_create)
      | None => (reps, (section_title, strip c) :: to_create)
      end
  end.

(** [replacements.sort(key=lambda x: x['start'], reverse=True)]: a stable
    sort, equal keys keep their original order. *)
Fixpoint insert_desc (r : replacement) (l : list replacement)
  : list replacement :=
  match l with
  | [] => [r]
  | x :: l' =>
      if r_start r <? r_start x then x :: insert_desc r l' else r :: l
  end.

Definition sort_desc (l : list replacement) : list replacement :=
  foldr insert_desc [] l.

(** One step of the second pass:
    [f"{before}\n{replacement['content']}\n{after}"]. *)
Definition apply_replacement (migrated_content : text) (r : replacement)
  : text :=
  let before := take (r_start r) migrated_content in
  let after := drop (r_end r) migrated_content in
  before ++ nl :: r_content r ++ nl :: after.

Definition apply_replacements (new_content : text)
  (replacements : list replacement) : text :=
  fold_left apply_replacement (sort_desc replacements) new_content.

(** Level of a section that has to be created: new template, then old
    template, then [section]. *)
Definition resolve_level (new_sections old_sections : gmap text section_info)
  (section_title : text) : level :=
  match new_sections !! section_title with
  | Some info => info_level info
  | None =>
      match old_sections !! section_title with
      | Some info => info_level info
      | None => section
      end
  end.

(** [f"\n\\{section_level}{{{section_title}}}\n{section_content}\n"] *)
Definition section_block (section_level : level)
  (section_title section_content : text) : text :=
  nl :: backslash :: level_name section_level
     ++ lbrace :: section_title ++ rbrace :: nl :: section_content ++ [nl].

Fixpoint new_sections_text (new_sections old_sections : gmap text section_info)
  (sections_to_create : list (text * text)) : text :=
  match sections_to_create with
  | [] => []
  | (section_title, section_content) :: rest =>
      section_block (resolve_level new_sections old_sections section_title)
        section_title section_content
      ++ new_sections_text new_sections old_sections rest
  end.

Definition create_sections (new_sections old_sections : gmap text section_info)
  (sections_to_create : list (text * text)) (migrated_content : text) : text :=
  match sections_to_create with
  | [] => migrated_content
  | _ :: _ =>
      match re_search match_end_document 0 migrated_content with
      | Some (insert_pos, _) =>
          take insert_pos migrated_content
          ++ new_sections_text new_sections old_sections sections_to_create
          ++ nl :: drop insert_pos migrated_content
      | None => migrated_content
      end
  end.

(** [migrated_content[:match.start()] + migrated_content[match.end():]] *)
Definition remove_match (migrated_content : text) (m : nat * nat) : text :=
  take m.1 migrated_content ++ drop m.2 migrated_content.

(** "Remove duplicate \end{document} if any": the text after the removals
    and [last_match]. *)
Definition dedup_end_document (migrated_content : text)
  : text * option (nat * nat) :=
  let matches := re_finditer match_end_document 0 0 migrated_content in
  if 1 <? length matches then
    let migrated_content' :=
      fold_left remove_match (removelast matches) migrated_content in
    (migrated_content',
     last (re_finditer match_end_document 0 0 migrated_content'))
  else
    match matches with
    | [m] => (migrated_content, Some m)
    | _ => (migrated_content, None)
    end.

(** [\\(section|subsection|subsubsection|paragraph)(\*?)\{] anchored at [s]:
    the alternatives in order, each followed by the optional star and the
    opening brace. *)
Fixpoint match_section_open (alts : list level) (s : text) : option unit :=
  match alts with
  | [] => None
  | k :: alts' =>
      let open r :=
        match r with
        | c :: _ => if Ascii.eqb c lbrace then Some () else None
        | [] => None
        end in
      let attempt :=
        match strip_prefix (backslash :: level_name k) s with
        | None => None
        | Some r =>
            match r with
            | c :: r1 =>
                if Ascii.eqb c star then
                  match open r1 with Some u => Some u | None => open r end
                else open r
            | [] => None
            end
        end in
      match attempt with
      | Some u => Some u
      | None => match_section_open alts' s
      end
  end.

Definition section_after_alternatives : list level :=
  [section; subsection; subsubsection; paragraph].

(** "Ensure all content is before \end{document}". *)
Definition relocate_trailing (migrated_content : text)
  (last_match : option (nat * nat)) : text :=
  match last_match with
  | None => migrated_content
  | Some (m_start, m_end) =>
      let after_end := drop m_end migrated_content in
      match re_search (match_section_open section_after_alternatives) 0
              after_end with
      | Some _ =>
          let before_end := take m_start migrated_content in
          let content_after := strip after_end in
          match content_after with
          | [] => migrated_content
          | _ :: _ =>
              before_end ++ nl :: content_after
              ++ nl :: nl :: slice m_start m_end migrated_content ++ [nl]
          end
      | None => migrated_content
      end
  end.

Definition post_process (migrated_content : text) : text :=
  let '(migrated_content', last_match) := dedup_end_document migrated_content in
  relocate_trailing migrated_content' last_match.

(** The two extraction results of a run and the policy flag passed to the
    locator. *)
Definition old_sections_of (cfg : config) (old_content : text)
  : gmap text section_info :=
  extract_for_mode (is_granular cfg) old_content.

Definition new_sections_of (cfg : config) (new_content : text)
  : gmap text section_info :=
  extract_for_mode (is_granular cfg) new_content.

Definition include_children_in_search (cfg : config) : bool :=
  negb (is_granular cfg).

(** [replacements] at the end of the first pass. *)
Definition replacements_of (cfg : config) (old_content new_content : text)
  : list replacement :=
  collect_section_mapping (old_sections_of cfg old_content) new_content
    (include_children_in_search cfg) (section_mapping cfg)
  ++ (collect_new_sections new_content (include_children_in_search cfg)
        (new_sections_content cfg)).1.

(** [sections_to_create] at the end of the first pass. *)
Definition sections_to_create_of (cfg : config) (new_content : text)
  : list (text * text) :=
  (collect_new_sections new_content (include_children_in_search cfg)
     (new_sections_content cfg)).2.

(** [migrated_content] after the second pass. *)
Definition spliced_content (cfg : config) (old_content new_content : text)
  : text :=
  apply_replacements new_content (replacements_of cfg old_content new_content).

(** The text written to [output_path]. *)
Definition migrate_content (cfg : config) (old_content new_content : text)
  : text :=
  let migrated_content := spliced_content cfg old_content new_content in
  let migrated_content :=
    create_sections (new_sections_of cfg new_content)
      (old_sections_of cfg old_content)
      (sections_to_create_of cfg new_content) migrated_content in
  post_process migrated_content.

(** ** Reference splice

    The specification compares the splice of [migrate_content] with a
    reference that walks the operations in ascending [start] order and
    recomputes the offsets after each edit.  [shift] is the running
    difference between positions in the current buffer and in the original
    text. *)

Fixpoint insert_asc (r : replacement) (l : list replacement)
  : list replacement :=
  match l with
  | [] => [r]
  | x :: l' =>
      if r_start x <? r_start r then x :: insert_asc r l' else r :: l
  end.

Definition sort_asc (l : list replacement) : list replacement :=
  foldr insert_asc [] l.

Fixpoint reference_go (shift : Z) (cur : text) (ops : list replacement)
  : text :=
  match ops with
  | [] => cur
  | r :: rest =>
      let s := Z.to_nat (Z.of_nat (r_start r) + shift) in
      let e := Z.to_nat (Z.of_nat (r_end r) + shift) in
      let inserted := nl :: r_content r ++ [nl] in
      reference_go
        (shift + Z.of_nat (length inserted)
         - (Z.of_nat (r_end r) - Z.of_nat (r_start r)))
        (take s cur ++ inserted ++ drop e cur) rest
  end.

Definition reference_splice (new_content : text) (ops : list replacement)
  : text :=
  reference_go 0 new_content (sort_asc ops).

(** A span of the original text. *)
Definition span_in (t : text) (r : replacement) : Prop :=
  r_start r <= r_end r /\ r_end r <= length t.

(** Two half-open spans share no position. *)
Definition disjoint_spans (a b : replacement) : Prop :=
  r_end a <= r_start b \/ r_end b <= r_start a.

Fixpoint pairwise {A} (R : A -> A -> Prop) (l : list A) : Prop :=
  match l with
  | [] => True
  | x :: l' => Forall (R x) l' /\ pairwise R l'
  end.

(** The text written by one ascending pass that copies the untouched gaps
    of [t] from position [k] on and the replacement texts in between. *)
Fixpoint gaps (k : nat) (t : text) (ops : list replacement) : text :=
  match ops with
  | [] => drop k t
  | r :: ops' =>
      slice k (r_start r) t ++ nl :: r_content r ++ nl :: gaps (r_end r) t ops'
  end.

(** Operations laid out left to right from [k] within a text of length [n]. *)
Fixpoint chain (k : nat) (ops : list replacement) (n : nat) : Prop :=
  match ops with
  | [] => k <= n
  | r :: ops' =>
      k <= r_start r /\ r_start r <= r_end r /\ chain (r_end r) ops' n
  end.

Definition lt_start (a b : replacement) : Prop := r_start a < r_start b.

(** ** Occurrences, stated on the text

    What the patterns of the script look for, stated without the search
    functions: a marker command written out, and a line that contains one. *)

Definition marker_text (k : level) (starred : bool) (title : text) : text :=
  backslash :: level_name k ++ (if starred then [star] else [])
    ++ lbrace :: title ++ [rbrace].

(** The marker command for [title] is written in [t] at offset [i]. *)
Definition marker_at (k : level) (starred : bool) (title t : text) (i : nat)
  : Prop :=
  exists pre post, t = pre ++ marker_text k starred title ++ post
                   /\ length pre = i.

Definition has_terminator (line : text) : Prop :=
  exists pre post, line = pre ++ end_document ++ post.

(** The line contains a marker of kind [k] with some non-empty,
    brace-free title. *)
Definition has_marker (k : level) (line : text) : Prop :=
  exists pre starred title post,
    title <> [] /\ (rbrace ∉ title)
    /\ line = pre ++ marker_text k starred title ++ post.

(** A line at which the span of a marker of rank [current_rank] ends. *)
Definition is_boundary (include_children : bool) (current_rank : nat)
  (line : text) : Prop :=
  has_terminator line
  \/ exists k, has_marker k line
               /\ (include_children = true ->
                   _get_section_level_rank k <= current_rank).

(** The test the line scan of the locator performs on each line. *)
Definition boundaryb (include_children : bool) (current_rank : nat)
  (line : text) : bool :=
  match re_search match_end_document 0 line with
  | Some _ => true
  | None => should_stop_at include_children current_rank sections_pattern line
  end.

(** What follows the located marker on its own line. *)
Definition rest_of_line (t : text) (start_pos : nat) : text :=
  default [] (head (split_nl (drop start_pos t))).

Definition lt_line_idx (a b : occurrence) : Prop :=
  occ_line_idx a < occ_line_idx b.

(** ** Example data *)

(** A document given line by line. *)
Definition doc_of_lines (l : list string) : text := join_nl (lit <$> l).

(** Side conditions on concrete operation lists. *)
Ltac solve_spans :=
  simpl;
  repeat match goal with
         | |- Forall _ [] => constructor
         | |- Forall _ (_ :: _) => constructor
         | |- _ /\ _ => split
         | |- True => exact I
         | |- span_in _ _ => unfold span_in; simpl; lia
         | |- disjoint_spans _ _ => unfold disjoint_spans; simpl; lia
         end.

Definition c1_text : text := lit "0123456789".

Definition c1_op (s e : nat) (c : string) : replacement :=
  {| r_start := s; r_end := e; r_content := lit c;
     r_old_section := lit "NEW_CONTENT"; r_new_section := lit c;
     r_type := type_new_content |}.

(** A section marker for "T" at offset 0 and a chapter marker for "T"
    further down. *)
Definition c4_text : text :=
  doc_of_lines ["\section{T}"; "A"; "\chapter{T}"; "B"].

(** A small destination template. *)
Definition template_text : text :=
  doc_of_lines ["\documentclass{x}"; "\section{Introduction}"; "old body";
                "\subsection{Detail}"; "more"; "\section{Next}"; "n";
                "\end{document}"; ""].

(** A marker followed by text on its own line. *)
Definition trailing_text : text :=
  doc_of_lines ["\section{A} trailing"; "body"; "\section{B}"; "x"].

(** A marker followed on its own line by text and the terminator. *)
Definition c10_text : text := lit "\section{A} x \end{document}".

Definition span_op (s e : nat) (c : text) : replacement :=
  {| r_start := s; r_end := e; r_content := c;
     r_old_section := lit "NEW_CONTENT"; r_new_section := [];
     r_type := type_new_content |}.

(** Three terminators in one text, and two. *)
Definition c2_text : text :=
  lit "A\end{document}B\end{document}C\end{document}".

Definition two_terminators_text : text :=
  lit "A\end{document}B\end{document}C".

(** Structural content after the terminator: a chapter, and a section. *)
Definition c6_text : text :=
  doc_of_lines ["x"; "\end{document}"; "\chapter{Stray}"; "t"].

Definition stray_section_text : text :=
  doc_of_lines ["x"; "\end{document}"; "\section{Stray}"; "t"].

(** A source document, a destination template and two configurations:
    one maps "Intro" to a title the template does not have, one supplies
    new content for such a title. *)
Definition source_text : text := doc_of_lines ["\section{Intro}"; "Hello"].

Definition c3_template : text :=
  doc_of_lines ["\section{Other}"; "body"; "\end{document}"; ""].

Definition c3_mapping_cfg : config :=
  {| mapping_mode := None;
     section_mapping := [(lit "Intro", lit "Missing")];
     new_sections_content := [] |}.

Definition c3_new_content_cfg : config :=
  {| mapping_mode := None;
     section_mapping := [];
     new_sections_content := [(lit "Acknowledgments", lit "Thanks.")] |}.

(** A mapping whose first entry names a source title that does not exist. *)
Definition c9_cfg : config :=
  {| mapping_mode := None;
     section_mapping := [(lit "Nowhere", lit "Other"); (lit "Intro", lit "Other")];
     new_sections_content := [] |}.

(** [cfg] with another [section_mapping]. *)
Definition with_section_mapping (cfg : config) (m : list (text * text))
  : config :=
  {| mapping_mode := mapping_mode cfg;
     section_mapping := m;
     new_sections_content := new_sections_content cfg |}.

(** Extraction results in which every content-only content is an initial
    part of the full-hierarchy content of the same title. *)
Definition content_related (m1 m2 : gmap text section_info) : Prop :=
  forall title co fu,
    m1 !! title = Some co -> m2 !! title = Some fu ->
    content co `prefix_of` content fu.

(** The entries of a dictionary stored under [title]. *)
Definition entries_for (title : text) (m : gmap text section_info)
  : list (text * section_info) :=
  filter (fun kv => kv.1 = title) (map_to_list m).

(** The source of Scenario E, and a document with the title "A" twice. *)
Definition scenario_e_text : text :=
  doc_of_lines ["\section{A}"; " text1"; "\subsection{B}"; " text2"].

Definition c8_text : text :=
  doc_of_lines ["\section{A}"; "first"; "\section{B}"; "mid";
                "\subsection{A}"; "second"].

Definition c8_last : occurrence :=
  {| occ_title := lit "A";
     occ_level := subsection;
     occ_rank := 2;
     occ_line_idx := 4;
     occ_line := lit "\subsection{A}" |}.

(** ** Further notions used by the properties of the locator, the scanner
    and the post-processing *)

(** The terminator is written in [t] at offset [i]. *)
Definition terminator_at (t : text) (i : nat) : Prop :=
  exists pre post, t = pre ++ end_document ++ post /\ length pre = i.

(** What the pattern behind the terminator looks for: the opening of a
    section, subsection, subsubsection or paragraph command. *)
Definition section_open_text (k : level) (starred : bool) : text :=
  backslash :: level_name k ++ (if starred then [star] else []) ++ [lbrace].

Definition has_section_open (s : text) : Prop :=
  exists pre k starred post,
    k ∈ section_after_alternatives
    /\ s = pre ++ section_open_text k starred ++ post.

(** Matches of [re.finditer] in the order of the text, none reaching into
    the next. *)
Definition match_before (a b : nat * nat) : Prop := a.2 <= b.1.

(** A text with its terminator in the middle, one without a terminator and
    one with two terminators. *)
Definition normalized_text : text :=
  doc_of_lines ["\section{Other}"; "body"; "\end{document}"; ""].

Definition no_terminator_text : text :=
  doc_of_lines ["\section{Other}"; "body"].

Definition empty_cfg : config :=
  {| mapping_mode := None; section_mapping := []; new_sections_content := [] |}.

Definition lt_level_rank (a b : level) : Prop :=
  _get_section_level_rank a < _get_section_level_rank b.

(** A line that carries a subsection marker and a section marker. *)
Definition two_markers_text : text :=
  doc_of_lines ["intro"; "\subsection{Inner} \section{Outer}"; "tail"].

Definition two_markers_occurrence : occurrence :=
  {| occ_title := lit "Outer";
     occ_level := section;
     occ_rank := 1;
     occ_line_idx := 1;
     occ_line := lit "\subsection{Inner} \section{Outer}" |}.

(** The operation the first loop records for a mapping entry. *)
Definition mapping_replacement (old_section new_section : text)
  (info : section_info) (start_pos end_pos : nat) : replacement :=
  {| r_start := start_pos;
     r_end := end_pos;
     r_content := strip (content info);
     r_old_section := old_section;
     r_new_section := new_section;
     r_type := type_section_mapping |}.

(** The configuration of Scenario A and its destination template. *)
Definition scenario_a_cfg : config :=
  {| mapping_mode := None;
     section_mapping := [(lit "Intro", lit "Introduction")];
     new_sections_content := [] |}.

(** ** [extract_sections_hierarchical]

    The stack of the function is kept with its last element first: the
    head of the list is [stack[-1]].  An entry of [sections] is modelled
    with its temporary field [content_lines]; the final loop turns it into
    [content]. *)

Record hier_entry := {
  h_level : level;
  h_line : text;
  h_content_lines : list text;
  h_full_hierarchy : list text;
  h_parent : option text
}.

Record hier_section := {
  hs_level : level;
  hs_line : text;
  hs_full_hierarchy : list text;
  hs_parent : option text;
  hs_content : text
}.

Definition stack_item : Type := text * level * nat.

Definition item_title (s : stack_item) : text := s.1.1.
Definition item_level (s : stack_item) : level := s.1.2.

(** [while stack and rank(stack[-1][1]) >= current_rank: stack.pop()] *)
Fixpoint close_sections (current_rank : nat) (stack : list stack_item)
  : list stack_item :=
  match stack with
  | [] => []
  | top :: below =>
      if current_rank <=? _get_section_level_rank (item_level top)
      then close_sections current_rank below
      else stack
  end.

(** [[s[0] for s in stack]], from the bottom of the stack to its top. *)
Definition stack_titles (stack : list stack_item) : list text :=
  reverse (item_title <$> stack).

(** [stack[-2][0] if len(stack) > 1 else None] *)
Definition stack_parent (stack : list stack_item) : option text :=
  match stack with
  | _ :: below :: _ => Some (item_title below)
  | _ => None
  end.

(** [if section_title in sections:
       sections[section_title]['content_lines'].append(line)] *)
Definition append_line (line : text) (sections : gmap text hier_entry)
  (section_title : text) : gmap text hier_entry :=
  match sections !! section_title with
  | Some e =>
      <[section_title :=
          {| h_level := h_level e;
             h_line := h_line e;
             h_content_lines := h_content_lines e ++ [line];
             h_full_hierarchy := h_full_hierarchy e;
             h_parent := h_parent e |}]> sections
  | None => sections
  end.

(** The loop [for idx, line in enumerate(lines)]. *)
Fixpoint hierarchical_loop (idx : nat) (lines : list text)
  (sections : gmap text hier_entry) (stack : list stack_item)
  : gmap text hier_entry * list stack_item :=
  match lines with
  | [] => (sections, stack)
  | line :: rest =>
      match first_marker sections_pattern idx line with
      | Some o =>
          let stack' :=
            (occ_title o, occ_level o, idx)
            :: close_sections (occ_rank o) stack in
          let sections' :=
            match sections !! occ_title o with
            | Some _ => sections
            | None =>
                <[occ_title o :=
                    {| h_level := occ_level o;
                       h_line := occ_line o;
                       h_content_lines := [];
                       h_full_hierarchy := stack_titles stack';
                       h_parent := stack_parent stack' |}]> sections
            end in
          hierarchical_loop (S idx) rest sections' stack'
      | None =>
          hierarchical_loop (S idx) rest
            (foldl (append_line line) sections (stack_titles stack)) stack
      end
  end.

Definition finish_entry (e : hier_entry) : hier_section :=
  {| hs_level := h_level e;
     hs_line := h_line e;
     hs_full_hierarchy := h_full_hierarchy e;
     hs_parent := h_parent e;
     hs_content := join_nl (h_content_lines e) |}.

Definition extract_sections_hierarchical (latex_content : text)
  : gmap text hier_section :=
  let lines := split_nl latex_content in
  finish_entry <$> (hierarchical_loop 0 lines ∅ []).1.

(** Ranks grow from the bottom of the stack to its top. *)
Definition item_above (top below : stack_item) : Prop :=
  _get_section_level_rank (item_level below)
  < _get_section_level_rank (item_level top).

(** A chapter with a section and two subsections, the second one named
    like the section. *)
Definition nested_text : text :=
  doc_of_lines ["\chapter{C}"; "c-line"; "\section{S}"; "s-line";
                "\subsection{U}"; "u-line"; "\subsection{S}"; "again";
                "\section{T}"; "t-line"].

(** What the hierarchical extraction keeps true of every entry: the path
    ends with the entry's own title, the parent is the title before it,
    and the path has at most five titles. *)
Definition path_ok (title : text) (e : hier_entry) : Prop :=
  exists path,
    h_full_hierarchy e = path ++ [title]
    /\ h_parent e = last path
    /\ length (h_full_hierarchy e) <= 5.

(** The fields of an entry that are written once. *)
Definition same_meta (e e' : hier_entry) : Prop :=
  h_level e' = h_level e /\ h_line e' = h_line e
  /\ h_full_hierarchy e' = h_full_hierarchy e /\ h_parent e' = h_parent e.

(** Lines of [lines] without a marker. *)
Definition plain_line_of (lines : list text) (l : text) : Prop :=
  l ∈ lines /\ forall k, ~ has_marker k l.

(** An entry with other content lines. *)
Definition with_content_lines (e : hier_entry) (ls : list text) : hier_entry :=
  {| h_level := h_level e;
     h_line := h_line e;
     h_content_lines := ls;
     h_full_hierarchy := h_full_hierarchy e;
     h_parent := h_parent e |}.

(** The line carries no marker of any kind. *)
Definition plainb (line : text) : bool :=
  match first_marker sections_pattern 0 line with
  | Some _ => false
  | None => true
  end.

(** The marker-free lines of [lines] in front of the first marker of rank
    at most [r]: what is added to an entry of rank [r] that is on the
    stack while [lines] are read. *)
Fixpoint open_lines (r idx : nat) (lines : list text) : list text :=
  match lines with
  | [] => []
  | l :: rest =>
      match first_marker sections_pattern idx l with
      | Some o =>
          if occ_rank o <=? r then [] else open_lines r (S idx) rest
      | None => l :: open_lines r (S idx) rest
      end
  end.

(** A document in which no title is repeated. *)
Definition distinct_titles_text : text :=
  doc_of_lines ["\chapter{C}"; "c-line"; "\section{S}"; "s-line";
                "\subsection{U}"; "u-line"; "\section{T}"; "t-line"].

(** * Properties *)

(** ** Splice order (C1) *)

Section splice_order.

Implicit Types (r x : replacement) (l ops : list replacement) (t : text).

Lemma insert_desc_Permutation r l : insert_desc r l ≡ₚ r :: l.
Proof.
  induction l as [|x l IH]; simpl; [done|].
  destruct (r_start r <? r_start x); [|done].
  rewrite IH. apply perm_swap.
Qed.

Lemma sort_desc_Permutation l : sort_desc l ≡ₚ l.
Proof.
  induction l as [|r l IH]; simpl; [done|].
  by rewrite insert_desc_Permutation, IH.
Qed.

Lemma insert_asc_Permutation r l : insert_asc r l ≡ₚ r :: l.
Proof.
  induction l as [|x l IH]; simpl; [done|].
  destruct (r_start x <? r_start r); [|done].
  rewrite IH. apply perm_swap.
Qed.

Lemma sort_asc_Permutation l : sort_asc l ≡ₚ l.
Proof.
  induction l as [|r l IH]; simpl; [done|].
  by rewrite insert_asc_Permutation, IH.
Qed.

Lemma insert_asc_sorted r l :
  StronglySorted lt_start l ->
  Forall (fun x => r_start x <> r_start r) l ->
  StronglySorted lt_start (insert_asc r l).
Proof.
  induction 1 as [|x l Hl IH Hx]; intros Hne; simpl.
  { repeat constructor. }
  apply Forall_cons in Hne as [Hxr Hne].
  destruct (r_start x <? r_start r) eqn:E.
  - apply Nat.ltb_lt in E. constructor; [by apply IH|].
    rewrite insert_asc_Permutation. by constructor.
  - apply Nat.ltb_ge in E.
    assert (lt_start r x) by (unfold lt_start; lia).
    constructor; [by constructor|].
    constructor; [done|].
    eapply Forall_impl; [exact Hx|]. unfold lt_start in *. intros; lia.
Qed.

Lemma insert_desc_sorted r l :
  StronglySorted (flip lt_start) l ->
  Forall (fun x => r_start x <> r_start r) l ->
  StronglySorted (flip lt_start) (insert_desc r l).
Proof.
  induction 1 as [|x l Hl IH Hx]; intros Hne; simpl.
  { repeat constructor. }
  apply Forall_cons in Hne as [Hxr Hne].
  destruct (r_start r <? r_start x) eqn:E.
  - apply Nat.ltb_lt in E. constructor; [by apply IH|].
    rewrite insert_desc_Permutation. by constructor.
  - apply Nat.ltb_ge in E.
    assert (flip lt_start r x) by (unfold flip, lt_start; lia).
    constructor; [by constructor|].
    constructor; [done|].
    eapply Forall_impl; [exact Hx|]. unfold flip, lt_start in *. intros; lia.
Qed.

Lemma distinct_starts_head r l :
  NoDup (r_start <$> r :: l) ->
  forall l', l' ≡ₚ l -> Forall (fun x => r_start x <> r_start r) l'.
Proof.
  rewrite fmap_cons, NoDup_cons. intros [Hr _] l' Hp.
  rewrite Hp. apply Forall_forall. intros x Hx E.
  apply Hr. rewrite <- E. by apply list_elem_of_fmap_2.
Qed.

Lemma sort_asc_sorted l :
  NoDup (r_start <$> l) -> StronglySorted lt_start (sort_asc l).
Proof.
  induction l as [|r l IH]; intros Hnd; simpl; [constructor|].
  apply insert_asc_sorted.
  - apply IH. rewrite fmap_cons in Hnd. by apply NoDup_cons in Hnd as [_ ?].
  - eapply distinct_starts_head; [done|apply sort_asc_Permutation].
Qed.

Lemma sort_desc_sorted l :
  NoDup (r_start <$> l) -> StronglySorted (flip lt_start) (sort_desc l).
Proof.
  induction l as [|r l IH]; intros Hnd; simpl; [constructor|].
  apply insert_desc_sorted.
  - apply IH. rewrite fmap_cons in Hnd. by apply NoDup_cons in Hnd as [_ ?].
  - eapply distinct_starts_head; [done|apply sort_desc_Permutation].
Qed.

Global Instance lt_start_trans : Transitive lt_start.
Proof. unfold lt_start. intros ???; lia. Qed.

Global Instance flip_lt_start_trans : Transitive (flip lt_start).
Proof. unfold flip, lt_start. intros ???; lia. Qed.

(** With pairwise distinct starts the descending order of the script is
    the mirror image of the ascending order of the reference. *)
Lemma sort_desc_reverse_asc l :
  NoDup (r_start <$> l) -> sort_desc l = reverse (sort_asc l).
Proof.
  intros Hnd. rewrite <- (reverse_involutive (sort_desc l)). f_equal.
  apply (StronglySorted_unique_strong lt_start).
  - unfold lt_start. intros; lia.
  - apply Sorted_StronglySorted; [apply _|].
    apply (Sorted_reverse (flip lt_start)), StronglySorted_Sorted.
    by apply sort_desc_sorted.
  - by apply sort_asc_sorted.
  - by rewrite reverse_Permutation, sort_desc_Permutation,
      sort_asc_Permutation.
Qed.

Lemma fold_left_reverse {A B} (f : A -> B -> A) (l : list B) (a : A) :
  fold_left f (reverse l) a = foldr (fun b acc => f acc b) a l.
Proof.
  induction l as [|b l IH]; simpl; [done|].
  by rewrite reverse_cons, fold_left_app, IH.
Qed.

Lemma chain_le k ops n : chain k ops n -> k <= n.
Proof.
  revert k. induction ops as [|r ops IH]; simpl; intros k; [done|].
  intros (? & ? & Hc). apply IH in Hc. lia.
Qed.

(** Applying the operations right to left leaves everything before the
    leftmost one untouched and produces the gap copy behind it. *)
Lemma foldr_apply_gaps t ops k :
  chain k ops (length t) ->
  foldr (fun r acc => apply_replacement acc r) t ops
  = take k t ++ gaps k t ops.
Proof.
  revert k. induction ops as [|r ops IH]; simpl; intros k.
  { intros _. by rewrite take_drop. }
  intros (Hk & Hse & Hc).
  pose proof (chain_le _ _ _ Hc) as Hle.
  rewrite (IH _ Hc). unfold apply_replacement, slice.
  rewrite take_app_le by (rewrite length_take; lia).
  rewrite take_take, Nat.min_l by lia.
  rewrite drop_app_length' by (rewrite length_take; lia).
  replace (take (r_start r) t)
    with (take k t ++ take (r_start r - k) (drop k t))
    by (rewrite take_take_drop; f_equal; lia).
  by rewrite <- app_assoc.
Qed.

(** The reference, started on a buffer whose first [k] original
    positions have already been rewritten into [pre], also produces the
    gap copy. *)
Lemma reference_go_gaps t ops k shift (pre : text) :
  chain k ops (length t) ->
  Z.of_nat (length pre) = (Z.of_nat k + shift)%Z ->
  reference_go shift (pre ++ drop k t) ops = pre ++ gaps k t ops.
Proof.
  revert k shift pre.
  induction ops as [|r ops IH]; simpl; intros k shift pre; [done|].
  intros (Hk & Hse & Hc) Hlen.
  pose proof (chain_le _ _ _ Hc) as Hle.
  replace (Z.to_nat (Z.of_nat (r_start r) + shift))
    with (length pre + (r_start r - k)) by lia.
  replace (Z.to_nat (Z.of_nat (r_end r) + shift))
    with (length pre + (r_end r - k)) by lia.
  rewrite take_app_add, drop_app_add, drop_drop.
  replace (k + (r_end r - k)) with (r_end r) by lia.
  set (pre' := pre ++ take (r_start r - k) (drop k t)
                   ++ nl :: r_content r ++ [nl]).
  match goal with
  | |- reference_go _ ?buf _ = _ =>
      replace buf with (pre' ++ drop (r_end r) t)
        by (unfold pre'; rewrite <- !app_assoc; simpl;
            by rewrite <- !app_assoc)
  end.
  rewrite IH; [|done|].
  - unfold slice, pre'. rewrite <- !app_assoc. simpl.
    by rewrite <- !app_assoc.
  - unfold pre'. rewrite !length_app, length_take, length_drop.
    simpl. rewrite !length_app. simpl. lia.
Qed.

Lemma pairwise_disjoint_ordered t ops :
  Forall (span_in t) ops ->
  pairwise disjoint_spans ops ->
  forall a b, a ∈ ops -> b ∈ ops ->
    r_start a < r_start b -> r_end a <= r_start b.
Proof.
  induction ops as [|x ops IH]; simpl; intros Hwf Hpw a b Ha Hb Hlt.
  { by apply elem_of_nil in Ha. }
  apply Forall_cons in Hwf as [Hx Hwf]. destruct Hpw as [Hxd Hpw].
  pose proof (proj1 (Forall_forall _ _) Hxd) as Hxd'.
  pose proof (proj1 (Forall_forall _ _) Hwf) as Hwf'.
  apply elem_of_cons in Ha as [->|Ha]; apply elem_of_cons in Hb as [->|Hb].
  - lia.
  - destruct (Hxd' _ Hb) as [?|?]; [done|].
    destruct (Hwf' _ Hb). lia.
  - destruct (Hxd' _ Ha) as [?|?]; [|done].
    destruct Hx. lia.
  - by apply IH.
Qed.

Lemma sorted_chain n ops k :
  StronglySorted lt_start ops ->
  Forall (fun r => r_start r <= r_end r /\ r_end r <= n) ops ->
  (forall a b, a ∈ ops -> b ∈ ops ->
     r_start a < r_start b -> r_end a <= r_start b) ->
  Forall (fun r => k <= r_start r) ops ->
  k <= n ->
  chain k ops n.
Proof.
  intros Hs. revert k.
  induction Hs as [|r ops Hs IH Hr]; simpl; intros k Hwf Hord Hk Hkn; [done|].
  apply Forall_cons in Hwf as [[? ?] Hwf].
  apply Forall_cons in Hk as [? Hk].
  split_and!; [done..|].
  apply IH; [done| | |done].
  - intros a b Ha Hb. apply Hord; by right.
  - rewrite Forall_forall in Hr |- *. intros x Hx.
    apply Hord; [by left|by right|]. by apply Hr.
Qed.

End splice_order.

(** C1 (as amended).  For operations whose spans lie in the original text,
    are pairwise disjoint and start at pairwise distinct offsets, the
    splice of [migrate_content] (stable descending sort by start, no
    offset adjustment) produces the same text as the reference that
    applies them in ascending start order and recomputes the offsets after
    each edit. *)
Theorem splice_descending_eq_reference (t : text) (ops : list replacement) :
  Forall (span_in t) ops ->
  pairwise disjoint_spans ops ->
  NoDup (r_start <$> ops) ->
  apply_replacements t ops = reference_splice t ops.
Proof.
  intros Hwf Hpw Hnd.
  unfold apply_replacements, reference_splice.
  rewrite (sort_desc_reverse_asc _ Hnd), fold_left_reverse.
  assert (chain 0 (sort_asc ops) (length t)) as Hc.
  { apply sorted_chain.
    - by apply sort_asc_sorted.
    - rewrite sort_asc_Permutation. exact Hwf.
    - intros a b Ha Hb. rewrite sort_asc_Permutation in Ha, Hb.
      by apply (pairwise_disjoint_ordered t ops).
    - apply Forall_forall. intros; lia.
    - lia. }
  rewrite (foldr_apply_gaps _ _ 0 Hc).
  symmetry. exact (reference_go_gaps t _ 0 0 [] Hc eq_refl).
Qed.

Lemma splice_descending_eq_reference_witness :
  apply_replacements c1_text [c1_op 6 9 "y"; c1_op 2 4 "x"]
  = reference_splice c1_text [c1_op 6 9 "y"; c1_op 2 4 "x"].
Proof.
  apply splice_descending_eq_reference.
  - solve_spans.
  - solve_spans.
  - apply (bool_decide_unpack _). by vm_compute.
Defined.

(** C1 as stated fails when an empty span shares its start with another
    operation: the two spans [5,5) and [5,8) are disjoint, the stable
    descending sort leaves them in input order, and the second edit then
    overwrites the text inserted by the first. *)
Lemma splice_tie_differs_from_reference :
  let ops := [c1_op 5 5 "a"; c1_op 5 8 "b"] in
  Forall (span_in c1_text) ops
  /\ pairwise disjoint_spans ops
  /\ apply_replacements c1_text ops <> reference_splice c1_text ops.
Proof.
  split_and!.
  - solve_spans.
  - solve_spans.
  - vm_compute. discriminate.
Qed.

(** Two operations on one empty span, as recorded when two entries name
    the same empty destination section, are disjoint as well; the script
    writes the later entry first, the ascending reference the earlier. *)
Lemma splice_equal_empty_spans_reversed :
  let ops := [c1_op 5 5 "a"; c1_op 5 5 "b"] in
  pairwise disjoint_spans ops
  /\ apply_replacements c1_text ops
     = lit "01234" ++ nl :: lit "b" ++ nl :: nl :: lit "a" ++ nl :: lit "56789"
  /\ reference_splice c1_text ops
     = lit "01234" ++ nl :: lit "a" ++ nl :: nl :: lit "b" ++ nl :: lit "56789".
Proof. split_and!; [solve_spans|by vm_compute..]. Qed.

(** ** Pattern matching on text *)

Section patterns.

Implicit Types (s t pat line title : text).

Lemma strip_prefix_app pat s : strip_prefix pat (pat ++ s) = Some s.
Proof.
  induction pat as [|p pat IH]; simpl; [done|].
  by rewrite Ascii.eqb_refl.
Qed.

Lemma strip_prefix_Some pat s r :
  strip_prefix pat s = Some r <-> s = pat ++ r.
Proof.
  split; [|intros ->; apply strip_prefix_app].
  revert s. induction pat as [|p pat IH]; simpl; intros s.
  { by intros [= ->]. }
  destruct s as [|c s]; [done|].
  destruct (Ascii.eqb_spec p c) as [->|]; [|done].
  intros H. by rewrite (IH _ H).
Qed.

Lemma re_search_None {A} (m : text -> option A) off s :
  re_search m off s = None <->
  forall j, j <= length s -> m (drop j s) = None.
Proof.
  revert off. induction s as [|c s IH]; simpl; intros off.
  - destruct (m []) eqn:E; split; try done.
    + intros H. specialize (H 0 (le_n _)). simpl in H. congruence.
    + intros _ j Hj. by replace j with 0 by lia.
  - destruct (m (c :: s)) eqn:E.
    + split; [done|]. intros H. specialize (H 0 (Nat.le_0_l _)).
      simpl in H. congruence.
    + rewrite IH. split.
      * intros H [|j] Hj; [done|]. simpl. apply H. lia.
      * intros H j Hj. apply (H (S j)). lia.
Qed.

Lemma re_search_Some {A} (m : text -> option A) off s p a :
  re_search m off s = Some (p, a) <->
  exists j, p = off + j /\ j <= length s /\ m (drop j s) = Some a
            /\ forall j', j' < j -> m (drop j' s) = None.
Proof.
  revert off. induction s as [|c s IH]; simpl; intros off.
  - destruct (m []) eqn:E; split.
    + intros [= <- <-]. exists 0. split_and!; [lia|lia|done|lia].
    + intros (j & -> & Hj & Hm & _). replace j with 0 in * by lia.
      simpl in Hm. rewrite Nat.add_0_r. congruence.
    + done.
    + intros (j & -> & Hj & Hm & _). replace j with 0 in * by lia.
      simpl in Hm. congruence.
  - destruct (m (c :: s)) eqn:E.
    + split.
      * intros [= <- <-]. exists 0. split_and!; [lia|lia|done|lia].
      * intros (j & -> & Hj & Hm & Hmin). destruct j as [|j].
        { simpl in Hm. rewrite Nat.add_0_r. congruence. }
        specialize (Hmin 0 (Nat.lt_0_succ _)). simpl in Hmin. congruence.
    + rewrite IH. split.
      * intros (j & -> & Hj & Hm & Hmin). exists (S j).
        split_and!; [lia|lia|done|].
        intros [|j'] Hj'; [done|]. simpl. apply Hmin. lia.
      * intros (j & -> & Hj & Hm & Hmin). destruct j as [|j].
        { simpl in Hm. congruence. }
        exists j. split_and!; [lia|lia|done|].
        intros j' Hj'. apply (Hmin (S j')). lia.
Qed.

(** A search succeeds exactly when the matcher succeeds on some suffix. *)
Lemma re_search_is_Some {A} (m : text -> option A) s :
  is_Some (re_search m 0 s) <->
  exists pre post, s = pre ++ post /\ is_Some (m post).
Proof.
  split.
  - intros [[p a] H]. apply re_search_Some in H as (j & _ & Hj & Hm & _).
    exists (take j s), (drop j s). by rewrite take_drop, Hm.
  - intros (pre & post & -> & Hm).
    destruct (re_search m 0 (pre ++ post)) eqn:E; [done|].
    rewrite re_search_None in E.
    specialize (E (length pre)). rewrite drop_app_length in E.
    rewrite E in Hm; [by destruct Hm|]. rewrite length_app. lia.
Qed.

Lemma match_literal_Some pat n s len :
  match_literal pat n s = Some len <->
  len = n + length pat /\ exists post, s = pat ++ post.
Proof.
  unfold match_literal. destruct (strip_prefix pat s) as [r|] eqn:E.
  - apply strip_prefix_Some in E as ->. split.
    + intros [= <-]. eauto.
    + by intros [-> _].
  - split; [done|]. intros [_ [post ->]].
    by rewrite strip_prefix_app in E.
Qed.

Lemma match_literal_star title n s :
  match_literal (lbrace :: title ++ [rbrace]) n (star :: s) = None.
Proof. done. Qed.

Lemma length_marker_text k starred title :
  length (marker_text k starred title)
  = S (length (level_name k)) + (if starred then 1 else 0)
    + S (S (length title)).
Proof.
  unfold marker_text. simpl. rewrite !length_app. simpl.
  rewrite length_app. simpl. destruct starred; simpl; lia.
Qed.

Lemma marker_text_unfold k starred title post :
  marker_text k starred title ++ post
  = (backslash :: level_name k)
    ++ (if starred then [star] else [])
    ++ (lbrace :: title ++ [rbrace]) ++ post.
Proof.
  unfold marker_text. simpl. rewrite <- !app_assoc. simpl.
  by rewrite <- !app_assoc.
Qed.

(** The locator pattern for [title], anchored: it matches exactly the
    marker command written out, starred or not. *)
Lemma match_title_Some k title s n :
  match_title k title s = Some n <->
  exists starred post,
    s = marker_text k starred title ++ post
    /\ n = length (marker_text k starred title).
Proof.
  unfold match_title. split.
  - destruct (strip_prefix _ s) as [r|] eqn:E; [|done].
    apply strip_prefix_Some in E as ->.
    assert (forall r, match_literal (lbrace :: title ++ [rbrace])
              (length (backslash :: level_name k)) r = Some n ->
            exists post,
              (backslash :: level_name k) ++ r
              = marker_text k false title ++ post
              /\ n = length (marker_text k false title)) as Hplain.
    { intros r' H. apply match_literal_Some in H as [-> [post ->]].
      exists post. rewrite marker_text_unfold, length_marker_text.
      split; [done|]. simpl. rewrite length_app. simpl. lia. }
    destruct r as [|c r1]; [by intros ?%Hplain; eauto|].
    destruct (Ascii.eqb_spec c star) as [->|]; [|by intros ?%Hplain; eauto].
    destruct (match_literal _ (S _) r1) as [n'|] eqn:E.
    + intros [= <-]. apply match_literal_Some in E as [-> [post ->]].
      exists true, post. rewrite marker_text_unfold, length_marker_text.
      split; [done|]. simpl. rewrite length_app. simpl. lia.
    + by rewrite match_literal_star.
  - intros (starred & post & -> & ->).
    rewrite marker_text_unfold, strip_prefix_app, length_marker_text.
    destruct starred; simpl.
    + unfold match_literal at 1. simpl.
      rewrite strip_prefix_app. f_equal.
      rewrite length_app. simpl. lia.
    + unfold match_literal. simpl.
      rewrite strip_prefix_app. f_equal.
      rewrite length_app. simpl. lia.
Qed.

Lemma until_rbrace_Some body title :
  until_rbrace body = Some title <->
  (rbrace ∉ title) /\ exists post, body = title ++ rbrace :: post.
Proof.
  revert title. induction body as [|c body IH]; simpl; intros title.
  - split; [done|]. intros [_ [post H]]. by destruct title.
  - destruct (Ascii.eqb_spec c rbrace) as [->|Hc].
    + split.
      * intros [= <-]. split; [apply not_elem_of_nil|by exists body].
      * intros [Hn [post H]]. destruct title as [|c' title]; [done|].
        simplify_eq/=. exfalso. apply Hn. by left.
    + destruct (until_rbrace body) as [t'|].
      * split.
        -- intros [= <-].
           destruct (proj1 (IH t') eq_refl) as [Hn [post ->]].
           split; [|by exists post].
           apply not_elem_of_cons. by split.
        -- intros [Hn [post H]].
           destruct title as [|c' title]; simplify_eq/=.
           apply not_elem_of_cons in Hn as [_ Hn].
           assert (Some t' = Some title) as [= ->]; [|done].
           apply IH. eauto.
      * split; [done|]. intros [Hn [post H]].
        destruct title as [|c' title]; simplify_eq/=.
        apply not_elem_of_cons in Hn as [_ Hn].
        assert (None = Some title) as ?; [|done].
        apply IH. eauto.
Qed.

Lemma match_braced_title_Some s title :
  match_braced_title s = Some title <->
  title <> [] /\ (rbrace ∉ title)
  /\ exists post, s = lbrace :: title ++ rbrace :: post.
Proof.
  unfold match_braced_title. destruct s as [|c body].
  { split; [done|]. by intros (_ & _ & post & ?). }
  destruct (Ascii.eqb_spec c lbrace) as [->|Hc].
  - destruct (until_rbrace body) as [[|c' t']|] eqn:E.
    + split; [done|]. intros (Hne & Hn & post & [= ->]).
      assert (Some [] = Some title) as [= <-]; [|done].
      rewrite <- E. apply until_rbrace_Some. eauto.
    + apply until_rbrace_Some in E as [Hn [post ->]]. split.
      * intros [= <-]. split_and!; [done|done|by exists post].
      * intros (Hne & Hn' & post' & [= H]). f_equal.
        assert (Some (c' :: t') = Some title) as [= ->]; [|done].
        rewrite <- (proj2 (until_rbrace_Some (title ++ rbrace :: post') title))
          by eauto.
        rewrite <- H. symmetry. apply until_rbrace_Some. eauto.
    + split; [done|]. intros (Hne & Hn & post & [= ->]).
      assert (None = Some title) as ?; [|done].
      rewrite <- E. apply until_rbrace_Some. eauto.
  - split; [done|]. intros (_ & _ & post & [= -> _]). done.
Qed.

(** The scanner pattern of kind [k], anchored: it matches a marker
    command of that kind with a non-empty title free of closing braces,
    and captures the title. *)
Lemma match_marker_Some k s title :
  match_marker k s = Some title <->
  title <> [] /\ (rbrace ∉ title)
  /\ exists starred post, s = marker_text k starred title ++ post.
Proof.
  unfold match_marker. split.
  - destruct (strip_prefix _ s) as [r|] eqn:E; [|done].
    apply strip_prefix_Some in E as ->.
    assert (forall r, match_braced_title r = Some title ->
            title <> [] /\ (rbrace ∉ title) /\
            exists starred post,
              (backslash :: level_name k) ++ r
              = marker_text k starred title ++ post) as Hplain.
    { intros r' (Hne & Hn & post & ->)%match_braced_title_Some.
      split_and!; [done..|]. exists false, post.
      rewrite marker_text_unfold. simpl. by rewrite <- app_assoc. }
    destruct r as [|c r1]; [by apply Hplain|].
    destruct (Ascii.eqb_spec c star) as [->|]; [|by apply Hplain].
    destruct (match_braced_title r1) as [t'|] eqn:E; [|by apply Hplain].
    intros [= <-].
    apply match_braced_title_Some in E as (Hne & Hn & post & ->).
    split_and!; [done..|]. exists true, post.
    rewrite marker_text_unfold. simpl. by rewrite <- app_assoc.
  - intros (Hne & Hn & starred & post & ->).
    rewrite marker_text_unfold, strip_prefix_app.
    assert (match_braced_title ((lbrace :: title ++ [rbrace]) ++ post)
            = Some title) as Hm.
    { apply match_braced_title_Some. split_and!; [done..|].
      exists post. simpl. by rewrite <- app_assoc. }
    destruct starred; simpl in *; by rewrite Hm.
Qed.

Lemma has_terminator_search line :
  has_terminator line <-> is_Some (re_search match_end_document 0 line).
Proof.
  rewrite re_search_is_Some. unfold has_terminator, match_end_document.
  split.
  - intros (pre & post & ->). exists pre, (end_document ++ post).
    split; [done|]. exists (0 + length end_document).
    apply match_literal_Some. eauto.
  - intros (pre & post & -> & [n Hn]).
    apply match_literal_Some in Hn as [_ [post' ->]]. eauto.
Qed.

Lemma has_marker_search k line :
  has_marker k line <-> is_Some (search_marker k line).
Proof.
  unfold search_marker. rewrite re_search_is_Some. unfold has_marker.
  split.
  - intros (pre & starred & title & post & Hne & Hn & ->).
    exists pre, (marker_text k starred title ++ post). split; [done|].
    exists title. apply match_marker_Some. eauto 6.
  - intros (pre & post & -> & [title Ht]).
    apply match_marker_Some in Ht as (Hne & Hn & starred & post' & ->).
    exists pre, starred, title, post'. eauto.
Qed.

End patterns.

(** ** Lines *)

Section lines.

Implicit Types (s t : text) (ls : list text).

Lemma split_nl_nonempty s : split_nl s <> [].
Proof.
  induction s as [|c s IH]; simpl; [done|].
  destruct (Ascii.eqb c nl); [done|]. by destruct (split_nl s).
Qed.

Lemma join_split s : join_nl (split_nl s) = s.
Proof.
  induction s as [|c s IH]; simpl; [done|].
  pose proof (split_nl_nonempty s) as Hne.
  destruct (Ascii.eqb_spec c nl) as [->|].
  - destruct (split_nl s) as [|l ls]; [done|]. simpl in *. by rewrite IH.
  - destruct (split_nl s) as [|l ls]; [done|].
    rewrite <- IH. simpl. by destruct ls.
Qed.

Lemma join_nl_cons l ls :
  ls <> [] -> join_nl (l :: ls) = l ++ nl :: join_nl ls.
Proof. by destruct ls. Qed.

Lemma join_nl_app ls1 ls2 :
  ls1 <> [] -> ls2 <> [] ->
  join_nl (ls1 ++ ls2) = join_nl ls1 ++ nl :: join_nl ls2.
Proof.
  induction ls1 as [|l ls1 IH]; intros H1 H2; [done|].
  destruct ls1 as [|l' ls1].
  - simpl. by destruct ls2.
  - change ((l :: l' :: ls1) ++ ls2) with (l :: (l' :: ls1) ++ ls2).
    rewrite !join_nl_cons by done. rewrite IH by done.
    by rewrite <- app_assoc.
Qed.

Lemma join_nl_prefix ls1 ls2 : join_nl ls1 `prefix_of` join_nl (ls1 ++ ls2).
Proof.
  destruct ls1 as [|l ls1]; [apply prefix_nil|].
  destruct ls2 as [|l2 ls2]; [by rewrite app_nil_r|].
  rewrite join_nl_app by done. by apply prefix_app_r.
Qed.

Lemma join_nl_take_prefix j ls : join_nl (take j ls) `prefix_of` join_nl ls.
Proof.
  rewrite <- (take_drop j ls) at 2. apply join_nl_prefix.
Qed.

Lemma rest_of_line_split t start_pos :
  exists ls, split_nl (drop start_pos t) = rest_of_line t start_pos :: ls.
Proof.
  unfold rest_of_line. pose proof (split_nl_nonempty (drop start_pos t)).
  destruct (split_nl (drop start_pos t)) as [|l ls]; [done|]. by exists ls.
Qed.

Lemma rest_of_line_prefix t start_pos :
  rest_of_line t start_pos `prefix_of` drop start_pos t.
Proof.
  destruct (rest_of_line_split t start_pos) as [ls Hls].
  rewrite <- (join_split (drop start_pos t)), Hls.
  apply (join_nl_prefix [_] ls).
Qed.

End lines.

(** ** Marker locator *)

Section locator.

Implicit Types (t title line : text) (inc : bool) (k : level).

Lemma should_stop_at_true inc cur ks line :
  should_stop_at inc cur ks line = true <->
  exists k, k ∈ ks /\ is_Some (search_marker k line)
            /\ (inc = true -> _get_section_level_rank k <= cur).
Proof.
  induction ks as [|k ks IH]; simpl.
  { split; [done|]. intros (k & Hk & _). by apply elem_of_nil in Hk. }
  destruct (search_marker k line) as [m|] eqn:E.
  - destruct inc.
    + destruct (Nat.leb_spec (_get_section_level_rank k) cur) as [Hle|Hgt].
      * split; [|done]. intros _. exists k.
        split_and!; [by left|by rewrite E|done].
      * rewrite IH. split.
        -- intros (k' & Hk' & ?). exists k'. split; [by right|done].
        -- intros (k' & Hk' & Hs & Hr). exists k'. split_and!; [|done..].
           apply elem_of_cons in Hk' as [->|]; [|done].
           specialize (Hr eq_refl). lia.
    + split; [|done]. intros _. exists k.
      split_and!; [by left|by rewrite E|done].
  - rewrite IH. split.
    + intros (k' & Hk' & ?). exists k'. split; [by right|done].
    + intros (k' & Hk' & Hs & Hr). exists k'. split_and!; [|done..].
      apply elem_of_cons in Hk' as [->|]; [|done].
      rewrite E in Hs. by destruct Hs.
Qed.

Lemma elem_of_sections_pattern k : k ∈ sections_pattern.
Proof. unfold sections_pattern. destruct k; set_solver. Qed.

(** The line test of the locator decides [is_boundary]. *)
Lemma boundaryb_true inc cur line :
  boundaryb inc cur line = true <-> is_boundary inc cur line.
Proof.
  unfold boundaryb, is_boundary. rewrite has_terminator_search.
  destruct (re_search match_end_document 0 line) as [m|] eqn:E.
  - split; [by left; eauto|done].
  - rewrite should_stop_at_true. split.
    + intros (k & _ & Hs & Hr). right. exists k.
      by rewrite has_marker_search.
    + intros [[? [=]]|(k & Hs & Hr)]. exists k.
      split; [apply elem_of_sections_pattern|].
      by rewrite <- has_marker_search.
Qed.

Lemma boundaryb_false inc cur line :
  boundaryb inc cur line = false <-> ~ is_boundary inc cur line.
Proof.
  rewrite <- boundaryb_true. by destruct (boundaryb inc cur line).
Qed.

Lemma scan_end_cons inc cur start_pos lines dflt idx line todo :
  scan_end inc cur start_pos lines dflt idx (line :: todo)
  = if boundaryb inc cur line
    then start_pos + length (join_nl (take idx lines))
    else scan_end inc cur start_pos lines dflt (S idx) todo.
Proof.
  simpl. unfold boundaryb.
  by destruct (re_search match_end_document 0 line).
Qed.

(** The scan stops at the first line that is a boundary. *)
Lemma scan_end_first inc cur start_pos lines dflt todo idx j line :
  todo !! j = Some line ->
  is_boundary inc cur line ->
  (forall i l, i < j -> todo !! i = Some l -> ~ is_boundary inc cur l) ->
  scan_end inc cur start_pos lines dflt idx todo
  = start_pos + length (join_nl (take (idx + j) lines)).
Proof.
  revert idx j. induction todo as [|l0 todo IH]; intros idx j Hj Hb Hmin.
  { done. }
  rewrite scan_end_cons. destruct j as [|j]; simpl in Hj.
  - simplify_eq. apply boundaryb_true in Hb. rewrite Hb.
    by rewrite Nat.add_0_r.
  - assert (boundaryb inc cur l0 = false) as ->.
    { apply boundaryb_false. apply (Hmin 0); [lia|done]. }
    rewrite (IH (S idx) j Hj Hb).
    + do 4 f_equal. lia.
    + intros i l Hi Hl. apply (Hmin (S i)); [lia|done].
Qed.

(** Without a boundary the scan runs to the end of the document. *)
Lemma scan_end_none inc cur start_pos lines dflt todo idx :
  (forall l, l ∈ todo -> ~ is_boundary inc cur l) ->
  scan_end inc cur start_pos lines dflt idx todo = dflt.
Proof.
  revert idx. induction todo as [|l0 todo IH]; intros idx Hno; [done|].
  rewrite scan_end_cons.
  assert (boundaryb inc cur l0 = false) as ->.
  { apply boundaryb_false, Hno. by left. }
  apply IH. intros l Hl. apply Hno. by right.
Qed.

Lemma scan_end_cases inc cur start_pos lines dflt todo idx :
  scan_end inc cur start_pos lines dflt idx todo = dflt
  \/ exists j, idx <= j
       /\ scan_end inc cur start_pos lines dflt idx todo
          = start_pos + length (join_nl (take j lines)).
Proof.
  revert idx. induction todo as [|l0 todo IH]; intros idx; [by left|].
  rewrite scan_end_cons. destruct (boundaryb inc cur l0).
  - right. by exists idx.
  - destruct (IH (S idx)) as [?|(j & Hj & ?)]; [by left|].
    right. exists j. split; [lia|done].
Qed.

Lemma find_with_patterns_Some ks t title inc s e k :
  find_with_patterns ks t title inc = Some (s, e, k) ->
  exists i n,
    k ∈ ks
    /\ re_search (match_title k title) 0 t = Some (i, n)
    /\ s = i + n
    /\ e = scan_end inc (_get_section_level_rank k) s
             (split_nl (drop s t)) (length t) 0 (split_nl (drop s t)).
Proof.
  induction ks as [|k0 ks IH]; simpl; [done|].
  destruct (re_search (match_title k0 title) 0 t) as [[i n]|] eqn:E.
  - intros [= <- <- <-]. exists i, n. split_and!; [by left|done..].
  - intros (i & n & ? & ?)%IH. exists i, n. split; [by right|done].
Qed.

(** A successful search for the title pattern of kind [k] is the
    leftmost place where the marker command is written. *)
Lemma search_title_Some k title t i n :
  re_search (match_title k title) 0 t = Some (i, n) <->
  exists starred,
    marker_at k starred title t i
    /\ n = length (marker_text k starred title)
    /\ forall j starred', j < i -> ~ marker_at k starred' title t j.
Proof.
  rewrite re_search_Some. split.
  - intros (j & -> & Hj & Hm & Hmin). simpl.
    apply match_title_Some in Hm as (starred & post & Hd & ->).
    exists starred. split_and!; [|done|].
    + exists (take j t), post. rewrite <- Hd, take_drop.
      split; [done|]. rewrite length_take. lia.
    + intros j' starred' Hj' (pre & post' & -> & Hlen).
      specialize (Hmin j' Hj'). rewrite <- Hlen, drop_app_length in Hmin.
      assert (match_title k title (marker_text k starred' title ++ post')
              = Some (length (marker_text k starred' title))) as Hs
        by (apply match_title_Some; eauto).
      congruence.
  - intros (starred & (pre & post & -> & Hlen) & -> & Hmin).
    exists i. split_and!; [done| | |].
    + rewrite length_app. lia.
    + rewrite <- Hlen, drop_app_length. apply match_title_Some. eauto.
    + intros j' Hj'.
      destruct (match_title k title (drop j' (pre ++ marker_text k starred title ++ post)))
        as [n'|] eqn:E; [|done].
      apply match_title_Some in E as (starred' & post' & Hd & _).
      exfalso. apply (Hmin j' starred' Hj').
      exists (take j' (pre ++ marker_text k starred title ++ post)), post'.
      rewrite <- Hd, take_drop. split; [done|].
      rewrite length_take, length_app. lia.
Qed.

Lemma search_title_None k title t :
  re_search (match_title k title) 0 t = None <->
  forall j starred, ~ marker_at k starred title t j.
Proof.
  rewrite re_search_None. split.
  - intros Hno j starred (pre & post & -> & Hlen).
    specialize (Hno j). rewrite <- Hlen, drop_app_length in Hno.
    assert (match_title k title (marker_text k starred title ++ post)
            = Some (length (marker_text k starred title))) as Hs
      by (apply match_title_Some; eauto).
    rewrite Hno in Hs; [done|]. rewrite length_app. lia.
  - intros Hno j Hj.
    destruct (match_title k title (drop j t)) as [n|] eqn:E; [|done].
    apply match_title_Some in E as (starred & post & Hd & _).
    exfalso. apply (Hno j starred).
    exists (take j t), post. rewrite <- Hd, take_drop. split; [done|].
    rewrite length_take. lia.
Qed.

End locator.

(** C4 (as amended).  The locator tries the five kinds in the fixed order
    chapter, section, subsection, subsubsection, paragraph and returns the
    leftmost occurrence of the first kind that has any occurrence of the
    title: if the marker of kind [k] is written at offset [i], not
    earlier, and no kind of smaller rank has an occurrence anywhere, the
    result has kind [k] and starts right after that occurrence. *)
Theorem locator_first_kind_in_order (t title : text) (inc : bool)
    (k : level) (starred : bool) (i : nat) :
  marker_at k starred title t i ->
  (forall j starred', j < i -> ~ marker_at k starred' title t j) ->
  (forall k' j starred',
     _get_section_level_rank k' < _get_section_level_rank k ->
     ~ marker_at k' starred' title t j) ->
  exists e,
    find_section_in_template t title inc
    = Some (i + length (marker_text k starred title), e, k).
Proof.
  intros Hat Hmin Hother.
  assert (re_search (match_title k title) 0 t
          = Some (i, length (marker_text k starred title))) as Hsome
    by (apply search_title_Some; eauto).
  assert (forall k', _get_section_level_rank k' < _get_section_level_rank k ->
            re_search (match_title k' title) 0 t = None) as Hnone.
  { intros k' Hk'. apply search_title_None. intros j s'. by apply Hother. }
  unfold find_section_in_template, sections_pattern.
  destruct k; cbn [find_with_patterns];
    rewrite ?(Hnone chapter), ?(Hnone section), ?(Hnone subsection),
      ?(Hnone subsubsection) by (simpl; lia);
    rewrite Hsome; eauto.
Qed.

Lemma locator_first_kind_in_order_witness :
  exists e,
    find_section_in_template c4_text (lit "T") true
    = Some (14 + length (marker_text chapter false (lit "T")), e, chapter).
Proof.
  assert (re_search (match_title chapter (lit "T")) 0 c4_text = Some (14, 11))
    as (starred & Hat & Hn & Hmin)%search_title_Some by (by vm_compute).
  destruct starred; [by vm_compute in Hn|].
  apply locator_first_kind_in_order.
  - exact Hat.
  - exact Hmin.
  - simpl. intros; lia.
Defined.

(** C4 as stated fails: the title "T" is written first as a section, at
    offset 0, yet the locator returns the chapter further down, because
    the chapter pattern is tried before the section pattern. *)
Lemma locator_prefers_kind_order_over_position :
  marker_at section false (lit "T") c4_text 0
  /\ marker_at chapter false (lit "T") c4_text 14
  /\ find_section_in_template c4_text (lit "T") true = Some (25, 27, chapter).
Proof.
  split_and!.
  - exists [], (drop 11 c4_text). by vm_compute.
  - exists (take 14 c4_text), (drop 25 c4_text). by vm_compute.
  - by vm_compute.
Qed.

(** C5.  The end of a located span is decided by the first boundary line
    met when scanning the text after the marker line by line: a line with
    the terminator, or a line with a marker that ends the span under the
    policy (rank at most the target's when children are included, any
    marker otherwise).  The span then consists of exactly the lines before
    that line; a terminator line counts whether or not it also carries a
    marker.  Without a boundary line the span runs to the end of the
    document. *)
Theorem span_end_at_first_boundary (t title : text) (inc : bool)
    (s e : nat) (k : level) :
  find_section_in_template t title inc = Some (s, e, k) ->
  let lines := split_nl (drop s t) in
  let cur := _get_section_level_rank k in
  (forall j line,
     lines !! j = Some line ->
     is_boundary inc cur line ->
     (forall i l, i < j -> lines !! i = Some l -> ~ is_boundary inc cur l) ->
     e = s + length (join_nl (take j lines))
     /\ slice s e t = join_nl (take j lines))
  /\ ((forall l, l ∈ lines -> ~ is_boundary inc cur l) -> e = length t).
Proof.
  intros (i & n & _ & _ & _ & He)%find_with_patterns_Some lines cur.
  fold lines cur in He. split.
  - intros j line Hj Hb Hmin.
    rewrite (scan_end_first _ _ _ _ _ _ 0 j line Hj Hb Hmin) in He.
    simpl in He. split; [done|].
    unfold slice. rewrite He.
    replace (s + length (join_nl (take j lines)) - s)
      with (length (join_nl (take j lines))) by lia.
    destruct (join_nl_take_prefix j lines) as [rest Hrest].
    unfold lines in Hrest at 1. rewrite join_split in Hrest.
    rewrite Hrest. by rewrite take_app_length.
  - intros Hno. by rewrite scan_end_none in He.
Qed.

Lemma span_end_at_first_boundary_witness :
  find_section_in_template template_text (lit "Introduction") true
  = Some (40, 74, section)
  /\ split_nl (drop 40 template_text) !! 4 = Some (lit "\section{Next}")
  /\ 74 = 40 + length (join_nl (take 4 (split_nl (drop 40 template_text))))
  /\ slice 40 74 template_text
     = doc_of_lines [""; "old body"; "\subsection{Detail}"; "more"].
Proof.
  assert (find_section_in_template template_text (lit "Introduction") true
          = Some (40, 74, section)) as Hfind by (by vm_compute).
  split; [exact Hfind|]. split; [by vm_compute|].
  destruct (span_end_at_first_boundary _ _ _ _ _ _ Hfind) as [Hfirst _].
  destruct (Hfirst 4 (lit "\section{Next}")) as [He Hs].
  - by vm_compute.
  - apply boundaryb_true. by vm_compute.
  - intros i l Hi Hl. apply boundaryb_false.
    do 4 (destruct i as [|i]; [vm_compute in Hl; simplify_eq; by vm_compute|]).
    lia.
  - split; [exact He|]. rewrite Hs. by vm_compute.
Defined.

(** C10 (as amended).  A located span starts right after the closing
    brace of the marker command.  When what follows the marker on its own
    line is not itself a boundary line, that remainder lies inside the
    span and a replacement of the span drops it. *)
Theorem span_starts_after_closing_brace (t title : text) (inc : bool)
    (s e : nat) (k : level) :
  find_section_in_template t title inc = Some (s, e, k) ->
  (exists i starred,
     marker_at k starred title t i
     /\ s = i + length (marker_text k starred title))
  /\ (~ is_boundary inc (_get_section_level_rank k) (rest_of_line t s) ->
      take (length (rest_of_line t s)) (drop s t) = rest_of_line t s
      /\ s + length (rest_of_line t s) <= e <= length t
      /\ forall c,
           apply_replacement t (span_op s e c)
           = take s t ++ nl :: c
             ++ nl :: drop (e - (s + length (rest_of_line t s)))
                        (drop (s + length (rest_of_line t s)) t)).
Proof.
  intros (i & n & _ & Hs & -> & He)%find_with_patterns_Some.
  apply search_title_Some in Hs as (starred & Hat & -> & _).
  split; [by eauto|].
  set (s := i + length (marker_text k starred title)) in *.
  intros Hnb.
  assert (s <= length t) as Hst.
  { destruct Hat as (pre & post & -> & <-). unfold s.
    rewrite !length_app. lia. }
  destruct (rest_of_line_prefix t s) as [tail Htail].
  assert (length (rest_of_line t s) <= length t - s) as Hlen.
  { rewrite <- (length_drop t s), Htail, length_app. lia. }
  assert (s + length (rest_of_line t s) <= e <= length t) as Hse.
  { destruct (rest_of_line_split t s) as [ls Hls].
    rewrite Hls, scan_end_cons in He.
    apply boundaryb_false in Hnb. rewrite Hnb in He.
    match type of He with
    | e = scan_end ?a ?b ?c ?d ?f ?g ?h =>
        destruct (scan_end_cases a b c d f h g) as [Hd|(j & Hj & Hd)];
          rewrite Hd in He
    end.
    - lia.
    - destruct (join_nl_take_prefix j (split_nl (drop s t))) as [r Hr].
      rewrite join_split, Hls in Hr.
      assert (length (drop s t)
              = length (join_nl (take j (rest_of_line t s :: ls)))
                + length r) as Hl by (by rewrite <- length_app, <- Hr).
      rewrite length_drop in Hl.
      destruct j as [|j]; [lia|]. simpl in He, Hl.
      destruct (take j ls) as [|l1 ls1] eqn:Ej.
      + simpl in *. lia.
      + rewrite length_app in He, Hl. simpl in *. lia. }
  split_and!; [|lia|lia|].
  - rewrite Htail. by rewrite take_app_length.
  - intros c. unfold apply_replacement. simpl.
    rewrite drop_drop. do 4 f_equal. f_equal. lia.
Qed.

Lemma span_starts_after_closing_brace_witness :
  find_section_in_template trailing_text (lit "A") true
  = Some (11, 25, section)
  /\ (exists i starred,
        marker_at section starred (lit "A") trailing_text i
        /\ 11 = i + length (marker_text section starred (lit "A")))
  /\ rest_of_line trailing_text 11 = lit " trailing"
  /\ 11 + length (rest_of_line trailing_text 11) <= 25 <= length trailing_text
  /\ apply_replacement trailing_text (span_op 11 25 (lit "new"))
     = doc_of_lines ["\section{A}"; "new"; ""; "\section{B}"; "x"].
Proof.
  assert (find_section_in_template trailing_text (lit "A") true
          = Some (11, 25, section)) as Hfind by (by vm_compute).
  split; [exact Hfind|].
  destruct (span_starts_after_closing_brace _ _ _ _ _ _ Hfind)
    as [Hstart Hrest].
  split; [exact Hstart|]. split; [by vm_compute|].
  destruct Hrest as (_ & Hle & Happly).
  - apply boundaryb_false. by vm_compute.
  - split; [exact Hle|]. rewrite Happly. by vm_compute.
Defined.

(** C10 as stated fails when the remainder of the marker's line is itself
    a boundary line: the span found for "A" is empty, so the text " x "
    written after the marker on the same line is not inside it and
    survives the replacement. *)
Lemma same_line_text_outside_empty_span :
  find_section_in_template c10_text (lit "A") true = Some (11, 11, section)
  /\ rest_of_line c10_text 11 = lit " x \end{document}"
  /\ ~ (11 + length (rest_of_line c10_text 11) <= 11)
  /\ apply_replacement c10_text (span_op 11 11 (lit "new"))
     = lit "\section{A}" ++ nl :: lit "new" ++ nl :: lit " x \end{document}".
Proof.
  split_and!; [by vm_compute|by vm_compute|vm_compute; lia|by vm_compute].
Qed.

(** ** Terminator normalisation (C2, C6) *)

(** Two terminators: the first is removed, the second kept, nothing else
    changes. *)
Lemma dedup_two_terminators :
  dedup_end_document two_terminators_text
  = (lit "AB\end{document}C", Some (2, 16)).
Proof. by vm_compute. Qed.

(** With exactly two matches one removal is made, at offsets that are
    still valid. *)
Lemma dedup_two_matches (t : text) (m1 m2 : nat * nat) :
  re_finditer match_end_document 0 0 t = [m1; m2] ->
  (dedup_end_document t).1 = take m1.1 t ++ drop m1.2 t.
Proof. intros H. unfold dedup_end_document. by rewrite H. Qed.

(** C2, at a text with three terminators.  The removals use the offsets
    found before the first removal: the second one cuts ["C\end{documen"]
    out of the already shortened text, so "C" is lost and a stray closing
    brace is left, where the claim asks for ["ABC\end{document}"]. *)
Theorem dedup_three_terminators_damages_text :
  re_finditer match_end_document 0 0 c2_text = [(1, 15); (16, 30); (31, 45)]
  /\ dedup_end_document c2_text = (lit "AB\end{document}}", Some (2, 16))
  /\ post_process c2_text = lit "AB\end{document}}"
  /\ post_process c2_text <> lit "ABC\end{document}".
Proof. split_and!; by vm_compute. Qed.

(** A section after the terminator is moved in front of it. *)
Lemma trailing_section_relocated :
  post_process stray_section_text
  = doc_of_lines ["x"; ""; "\section{Stray}"; "t"; ""; "\end{document}"; ""].
Proof. by vm_compute. Qed.

(** C6, at a text whose trailing content is a chapter.  The pattern that
    looks behind the terminator lists section, subsection, subsubsection
    and paragraph only, so the text is left as it is, the chapter still
    behind the terminator. *)
Theorem trailing_chapter_not_relocated :
  re_search (match_section_open section_after_alternatives) 0
    (drop 16 c6_text) = None
  /\ post_process c6_text = c6_text.
Proof. split; by vm_compute. Qed.

(** ** Collecting operations (C3, C9) *)

Section collect.

Implicit Types (olds : gmap text section_info) (t : text) (inc : bool)
  (m : list (text * text)).

Lemma collect_section_mapping_app olds t inc m1 m2 :
  collect_section_mapping olds t inc (m1 ++ m2)
  = collect_section_mapping olds t inc m1
    ++ collect_section_mapping olds t inc m2.
Proof.
  induction m1 as [|[o n] m1 IH]; simpl; [done|].
  destruct (olds !! o); [|done].
  destruct (find_section_in_template t n inc) as [[[? ?] ?]|]; [|done].
  simpl. by rewrite IH.
Qed.

(** Every operation of the first loop comes from an entry whose source
    title was extracted and whose destination title was located. *)
Lemma collect_section_mapping_elem olds t inc m r :
  r ∈ collect_section_mapping olds t inc m ->
  r_type r = type_section_mapping
  /\ (r_old_section r, r_new_section r) ∈ m
  /\ is_Some (olds !! r_old_section r)
  /\ exists k,
       find_section_in_template t (r_new_section r) inc
       = Some (r_start r, r_end r, k).
Proof.
  induction m as [|[o n] m IH]; simpl.
  { by intros ?%elem_of_nil. }
  assert (r ∈ collect_section_mapping olds t inc m ->
          r_type r = type_section_mapping
          /\ (r_old_section r, r_new_section r) ∈ (o, n) :: m
          /\ is_Some (olds !! r_old_section r)
          /\ exists k,
               find_section_in_template t (r_new_section r) inc
               = Some (r_start r, r_end r, k)) as IH'.
  { intros (? & ? & ? & ?)%IH. split_and!; [done|by right|done..]. }
  destruct (olds !! o) as [info|] eqn:Eo; [|done].
  destruct (find_section_in_template t n inc) as [[[s e] k]|] eqn:Ef;
    [|done].
  intros [->|?]%elem_of_cons; [|by apply IH'].
  simpl. split_and!; [done|by left|by rewrite Eo|by exists k].
Qed.

Lemma collect_new_sections_type t inc entries r :
  r ∈ (collect_new_sections t inc entries).1 -> r_type r = type_new_content.
Proof.
  induction entries as [|[title c] entries IH]; simpl.
  { by intros ?%elem_of_nil. }
  destruct (collect_new_sections t inc entries) as [reps to_create].
  destruct (find_section_in_template t title inc) as [[[s e] k]|];
    simpl in *; [|done].
  by intros [->|?]%elem_of_cons; [|apply IH].
Qed.

(** An entry of [new_sections_content] whose title is not located is
    put on [sections_to_create]. *)
Lemma collect_new_sections_pending t inc entries title c :
  (title, c) ∈ entries ->
  find_section_in_template t title inc = None ->
  (title, strip c) ∈ (collect_new_sections t inc entries).2.
Proof.
  induction entries as [|[title' c'] entries IH]; simpl.
  { by intros ?%elem_of_nil. }
  intros Hin Hnone.
  destruct (collect_new_sections t inc entries) as [reps to_create].
  apply elem_of_cons in Hin as [[= <- <-]|Hin].
  - rewrite Hnone. by left.
  - specialize (IH Hin Hnone).
    destruct (find_section_in_template t title' inc) as [[[s e] k]|];
      simpl in *; [done|by right].
Qed.

(** The text built for [sections_to_create] contains the block of each
    of its entries. *)
Lemma new_sections_text_block news olds to_create title c :
  (title, c) ∈ to_create ->
  exists before after,
    new_sections_text news olds to_create
    = before ++ section_block (resolve_level news olds title) title c
        ++ after.
Proof.
  induction to_create as [|[title' c'] to_create IH];
    cbn [new_sections_text].
  { by intros ?%elem_of_nil. }
  intros [[= <- <-]|Hin]%elem_of_cons.
  - by exists [], (new_sections_text news olds to_create).
  - destruct (IH Hin) as (before & after & ->).
    exists (section_block (resolve_level news olds title') title' c'
            ++ before), after.
    by rewrite <- app_assoc.
Qed.

End collect.

(** C3 (as amended).  An entry of [new_sections_content] whose title the
    locator does not find in the untouched destination text is recorded
    on [sections_to_create]; when the spliced text has a terminator, the
    marker block with its content is inserted in front of the first
    terminator.  (An entry of [section_mapping] whose destination title is
    not found is only logged and leaves nothing behind.) *)
Theorem unlocated_new_section_is_created (cfg : config)
    (old_content new_content title c : text) :
  (title, c) ∈ new_sections_content cfg ->
  find_section_in_template new_content title (include_children_in_search cfg)
  = None ->
  (title, strip c) ∈ sections_to_create_of cfg new_content
  /\ forall pos n,
       re_search match_end_document 0
         (spliced_content cfg old_content new_content) = Some (pos, n) ->
       exists lvl before after post,
         create_sections (new_sections_of cfg new_content)
           (old_sections_of cfg old_content)
           (sections_to_create_of cfg new_content)
           (spliced_content cfg old_content new_content)
         = take pos (spliced_content cfg old_content new_content)
           ++ (before ++ section_block lvl title (strip c) ++ after)
           ++ nl :: end_document ++ post
         /\ drop pos (spliced_content cfg old_content new_content)
            = end_document ++ post.
Proof.
  intros Hin Hnone.
  pose proof (collect_new_sections_pending _ _ _ _ _ Hin Hnone) as Hpend.
  split; [exact Hpend|].
  intros pos n Hpos. unfold create_sections.
  fold (sections_to_create_of cfg new_content) in Hpend.
  destruct (sections_to_create_of cfg new_content) as [|p ps] eqn:Ec.
  { by apply elem_of_nil in Hpend. }
  rewrite Hpos.
  destruct (new_sections_text_block (new_sections_of cfg new_content)
              (old_sections_of cfg old_content) _ _ _ Hpend)
    as (before & after & ->).
  apply re_search_Some in Hpos as (j & -> & _ & Hm & _). simpl in *.
  apply match_literal_Some in Hm as [_ [post Hpost]].
  exists (resolve_level (new_sections_of cfg new_content)
            (old_sections_of cfg old_content) title), before, after, post.
  by rewrite Hpost.
Qed.

Lemma unlocated_new_section_is_created_witness :
  (lit "Acknowledgments", strip (lit "Thanks."))
  ∈ sections_to_create_of c3_new_content_cfg c3_template
  /\ migrate_content c3_new_content_cfg source_text c3_template
     = doc_of_lines ["\section{Other}"; "body"; "";
                     "\section{Acknowledgments}"; "Thanks."; "";
                     "\end{document}"; ""].
Proof.
  split; [|by vm_compute].
  apply (unlocated_new_section_is_created c3_new_content_cfg source_text
           c3_template (lit "Acknowledgments") (lit "Thanks.")).
  - by left.
  - by vm_compute.
Defined.

(** C3 as stated fails for [section_mapping]: "Intro" exists in the source
    and its destination title "Missing" is not located, yet nothing is
    put on [sections_to_create] and the template comes out unchanged. *)
Lemma unlocated_mapping_entry_is_dropped :
  is_Some (old_sections_of c3_mapping_cfg source_text !! lit "Intro")
  /\ find_section_in_template c3_template (lit "Missing")
       (include_children_in_search c3_mapping_cfg) = None
  /\ replacements_of c3_mapping_cfg source_text c3_template = []
  /\ sections_to_create_of c3_mapping_cfg c3_template = []
  /\ migrate_content c3_mapping_cfg source_text c3_template = c3_template.
Proof.
  split_and!; try by vm_compute.
  exists {| content := lit "Hello"; info_level := section;
            info_line := lit "\section{Intro}"; info_rank := 1 |}.
  by vm_compute.
Qed.

(** C9.  An entry of [section_mapping] whose source title was not
    extracted from the source document leaves no trace: the run is the
    run of the configuration without that entry (same operations, same
    sections to create, same output), and no operation of the mapping
    loop carries that source title. *)
Theorem missing_source_title_skipped (cfg : config)
    (old_content new_content : text) (pre post : list (text * text))
    (old_section new_section : text) :
  section_mapping cfg = pre ++ (old_section, new_section) :: post ->
  old_sections_of cfg old_content !! old_section = None ->
  let cfg' := with_section_mapping cfg (pre ++ post) in
  replacements_of cfg old_content new_content
  = replacements_of cfg' old_content new_content
  /\ sections_to_create_of cfg new_content
     = sections_to_create_of cfg' new_content
  /\ migrate_content cfg old_content new_content
     = migrate_content cfg' old_content new_content
  /\ forall r, r ∈ replacements_of cfg old_content new_content ->
       r_type r = type_section_mapping -> r_old_section r <> old_section.
Proof.
  intros Hm Hnone cfg'.
  assert (replacements_of cfg old_content new_content
          = replacements_of cfg' old_content new_content) as Hreps.
  { unfold replacements_of. f_equal.
    change (old_sections_of cfg' old_content)
      with (old_sections_of cfg old_content).
    change (include_children_in_search cfg')
      with (include_children_in_search cfg).
    rewrite Hm. simpl. rewrite !collect_section_mapping_app. simpl.
    by rewrite Hnone. }
  split_and!; [done|done| |].
  - unfold migrate_content, spliced_content. by rewrite Hreps.
  - intros r Hr Hty Heq. unfold replacements_of in Hr.
    apply elem_of_app in Hr as [Hr|Hr].
    + apply collect_section_mapping_elem in Hr as (_ & _ & [? Hs] & _).
      rewrite Heq in Hs. congruence.
    + apply collect_new_sections_type in Hr. congruence.
Qed.

Lemma missing_source_title_skipped_witness :
  old_sections_of c9_cfg source_text !! lit "Nowhere" = None
  /\ migrate_content c9_cfg source_text c3_template
     = migrate_content
         (with_section_mapping c9_cfg [(lit "Intro", lit "Other")])
         source_text c3_template.
Proof.
  split; [by vm_compute|].
  apply (missing_source_title_skipped c9_cfg source_text c3_template
           [] [(lit "Intro", lit "Other")] (lit "Nowhere") (lit "Other")).
  - done.
  - by vm_compute.
Defined.

(** ** Extraction (C7, C8) *)

Section extraction.

Implicit Types (s t : text) (lines : list text) (o : occurrence)
  (occs later : list occurrence) (m : gmap text section_info).

Lemma rstrip_app_prefix s t : rstrip s `prefix_of` rstrip (s ++ t).
Proof.
  induction s as [|c s IH]; simpl; [apply prefix_nil|].
  destruct (rstrip s) as [|c' r] eqn:E.
  - destruct (is_space c); [apply prefix_nil|].
    destruct (rstrip (s ++ t)); apply prefix_cons, prefix_nil.
  - destruct IH as [k ->]. simpl. apply prefix_cons. by exists k.
Qed.

Lemma lstrip_app s t : lstrip s <> [] -> lstrip (s ++ t) = lstrip s ++ t.
Proof.
  induction s as [|c s IH]; simpl; [done|].
  destruct (is_space c); [done|]. by intros _.
Qed.

(** Trimming is monotone on initial parts. *)
Lemma strip_mono s t : s `prefix_of` t -> strip s `prefix_of` strip t.
Proof.
  intros [k ->]. unfold strip.
  destruct (lstrip s) as [|c r] eqn:E; [apply prefix_nil|].
  rewrite lstrip_app by (by rewrite E). rewrite E.
  apply rstrip_app_prefix.
Qed.

Lemma join_nl_mono (ls1 ls2 : list text) :
  ls1 `prefix_of` ls2 -> join_nl ls1 `prefix_of` join_nl ls2.
Proof. intros [k ->]. apply join_nl_prefix. Qed.

Lemma slice_mono {A} (a b1 b2 : nat) (l : list A) :
  b1 <= b2 -> slice a b1 l `prefix_of` slice a b2 l.
Proof.
  intros Hle. unfold slice.
  replace (take (b1 - a) (drop a l))
    with (take (b1 - a) (take (b2 - a) (drop a l)))
    by (rewrite take_take; f_equal; lia).
  apply prefix_take.
Qed.

Lemma first_marker_idx ks idx line o :
  first_marker ks idx line = Some o -> occ_line_idx o = idx.
Proof.
  induction ks as [|k ks IH]; simpl; [done|].
  destruct (search_marker k line) as [[? ?]|]; [|done].
  by intros [= <-].
Qed.

(** The scanner reports its occurrences in increasing line order, with
    line numbers of the scanned range. *)
Lemma scan_sections_bounds lines idx :
  Forall (fun o => idx <= occ_line_idx o < idx + length lines)
    (scan_sections idx lines).
Proof.
  revert idx. induction lines as [|line lines IH]; intros idx;
    cbn [scan_sections length].
  { constructor. }
  assert (Forall (fun o => idx <= occ_line_idx o < idx + S (length lines))
            (scan_sections (S idx) lines)) as Htl.
  { eapply Forall_impl; [apply IH|]. simpl. intros; lia. }
  destruct (first_marker sections_pattern idx line) as [o|] eqn:E;
    [|done].
  constructor; [|done]. apply first_marker_idx in E. lia.
Qed.

Lemma scan_sections_sorted lines idx :
  StronglySorted lt_line_idx (scan_sections idx lines).
Proof.
  revert idx. induction lines as [|line lines IH]; intros idx;
    cbn [scan_sections].
  { constructor. }
  destruct (first_marker sections_pattern idx line) as [o|] eqn:E;
    [|done].
  constructor; [done|]. apply first_marker_idx in E.
  eapply Forall_impl; [apply (scan_sections_bounds lines (S idx))|].
  unfold lt_line_idx. simpl. intros; lia.
Qed.

Lemma full_end_cases cur later dflt :
  full_end cur later dflt = dflt
  \/ exists o, o ∈ later /\ full_end cur later dflt = occ_line_idx o.
Proof.
  induction later as [|o later IH]; simpl; [by left|].
  destruct (occ_rank o <=? cur).
  - right. exists o. split; [by left|done].
  - destruct IH as [?|(o' & ? & ?)]; [by left|].
    right. exists o'. split; [by right|done].
Qed.

(** The content-only boundary never lies behind the full-hierarchy one. *)
Lemma content_only_end_le_full_end cur later n :
  StronglySorted lt_line_idx later ->
  Forall (fun o => occ_line_idx o < n) later ->
  content_only_end cur later n <= full_end cur later n.
Proof.
  intros Hs Hb. destruct later as [|o later]; simpl; [done|].
  destruct (occ_rank o <=? cur); [done|].
  apply StronglySorted_cons in Hs as [Ho _].
  apply Forall_cons in Hb as [Hon Hb].
  destruct (full_end_cases cur later n) as [->|(o' & Ho' & ->)]; [lia|].
  rewrite Forall_forall in Ho. specialize (Ho _ Ho').
  unfold lt_line_idx in Ho. lia.
Qed.

Lemma section_entry_related lines o later :
  StronglySorted lt_line_idx later ->
  Forall (fun o' => occ_line_idx o' < length lines) later ->
  content (section_entry content_only_end lines o later)
    `prefix_of` content (section_entry full_end lines o later).
Proof.
  intros Hs Hb. simpl.
  apply strip_mono, join_nl_mono, slice_mono.
  by apply content_only_end_le_full_end.
Qed.

Lemma content_related_insert m1 m2 title e1 e2 :
  content e1 `prefix_of` content e2 ->
  content_related m1 m2 ->
  content_related (<[title := e1]> m1) (<[title := e2]> m2).
Proof.
  intros He HR t co fu.
  destruct (decide (title = t)) as [->|Hne].
  - rewrite !lookup_insert_eq. by intros [= <-] [= <-].
  - rewrite !lookup_insert_ne by done. apply HR.
Qed.

Lemma second_pass_related lines occs m1 m2 :
  StronglySorted lt_line_idx occs ->
  Forall (fun o => occ_line_idx o < length lines) occs ->
  content_related m1 m2 ->
  content_related (second_pass content_only_end lines occs m1)
    (second_pass full_end lines occs m2).
Proof.
  intros Hs. revert m1 m2.
  induction Hs as [|o later Hs IH Ho]; intros m1 m2 Hb HR; simpl; [done|].
  apply Forall_cons in Hb as [_ Hb].
  apply IH; [done|].
  apply content_related_insert; [|done].
  by apply section_entry_related.
Qed.

(** Titles that do not occur are not touched by the second pass. *)
Lemma second_pass_lookup_other find_end lines occs m title :
  (forall o, o ∈ occs -> occ_title o <> title) ->
  second_pass find_end lines occs m !! title = m !! title.
Proof.
  revert m. induction occs as [|o later IH]; intros m Hno; simpl; [done|].
  rewrite IH by (intros o' Ho'; apply Hno; by right).
  apply lookup_insert_ne, Hno. by left.
Qed.

(** The entry of a title is the one written for its last occurrence. *)
Lemma second_pass_lookup_last find_end lines pre o later m :
  (forall o', o' ∈ later -> occ_title o' <> occ_title o) ->
  second_pass find_end lines (pre ++ o :: later) m !! occ_title o
  = Some (section_entry find_end lines o later).
Proof.
  intros Hno. revert m. induction pre as [|o0 pre IH]; intros m; simpl.
  - rewrite second_pass_lookup_other by done. apply lookup_insert_eq.
  - apply IH.
Qed.

Lemma second_pass_dom find_end find_end' lines occs m m' title :
  (is_Some (m !! title) <-> is_Some (m' !! title)) ->
  is_Some (second_pass find_end lines occs m !! title)
  <-> is_Some (second_pass find_end' lines occs m' !! title).
Proof.
  revert m m'. induction occs as [|o later IH]; intros m m' Hm; simpl;
    [done|].
  apply IH. destruct (decide (occ_title o = title)) as [->|Hne].
  - by rewrite !lookup_insert_eq.
  - by rewrite !lookup_insert_ne.
Qed.

Lemma filter_key_absent {V} (l : list (text * V)) title :
  title ∉ l.*1 -> filter (fun kv => kv.1 = title) l = [].
Proof.
  induction l as [|[k v] l IH]; simpl; [done|].
  intros [Hk Hl]%not_elem_of_cons.
  rewrite filter_cons_False by (simpl; congruence). by apply IH.
Qed.

Lemma filter_key_unique {V} (l : list (text * V)) title v :
  NoDup (l.*1) -> (title, v) ∈ l ->
  filter (fun kv => kv.1 = title) l = [(title, v)].
Proof.
  induction l as [|[k v'] l IH]; simpl.
  { by intros _ ?%elem_of_nil. }
  intros [Hk Hnd]%NoDup_cons Hin.
  destruct (decide (k = title)) as [->|Hne].
  - rewrite filter_cons_True by done.
    apply elem_of_cons in Hin as [[= ->]|Hin].
    + by rewrite filter_key_absent.
    + exfalso. apply Hk. apply list_elem_of_fmap. by exists (title, v).
  - rewrite filter_cons_False by done.
    apply elem_of_cons in Hin as [[= ? ?]|Hin]; [congruence|].
    by apply IH.
Qed.

(** A dictionary holds one entry for a title it maps. *)
Lemma entries_for_lookup m title e :
  m !! title = Some e -> entries_for title m = [(title, e)].
Proof.
  intros Hm. apply filter_key_unique.
  - apply NoDup_fst_map_to_list.
  - by apply elem_of_map_to_list.
Qed.

(** Both extraction functions report the same titles. *)
Lemma extract_same_titles (doc : text) title :
  is_Some (extract_sections_content_only doc !! title)
  <-> is_Some (extract_sections doc !! title).
Proof. by apply second_pass_dom. Qed.

End extraction.

(** C7.  For every document and every title of the extraction output, the
    title has a full-hierarchy entry as well, and its content-only content
    is a substring (an initial part, even) of its full-hierarchy content. *)
Theorem content_only_within_full_hierarchy (doc title : text)
    (co : section_info) :
  extract_sections_content_only doc !! title = Some co ->
  exists fu,
    extract_sections doc !! title = Some fu
    /\ exists before after, content fu = before ++ content co ++ after.
Proof.
  intros Hco.
  destruct (proj1 (extract_same_titles doc title)) as [fu Hfu].
  { by rewrite Hco. }
  exists fu. split; [done|].
  assert (content_related (extract_sections_content_only doc)
            (extract_sections doc)) as HR.
  { apply second_pass_related.
    - apply scan_sections_sorted.
    - eapply Forall_impl; [apply scan_sections_bounds|].
      simpl. intros; lia.
    - intros t co' fu'. by rewrite lookup_empty. }
  destruct (HR _ _ _ Hco Hfu) as [after ->].
  by exists [], after.
Qed.

Lemma content_only_within_full_hierarchy_witness :
  extract_sections_content_only scenario_e_text !! lit "A"
  = Some {| content := lit "text1"; info_level := section;
            info_line := lit "\section{A}"; info_rank := 1 |}
  /\ exists fu,
       extract_sections scenario_e_text !! lit "A" = Some fu
       /\ exists before after, content fu = before ++ lit "text1" ++ after.
Proof.
  split; [by vm_compute|].
  apply (content_only_within_full_hierarchy scenario_e_text (lit "A")
           {| content := lit "text1"; info_level := section;
              info_line := lit "\section{A}"; info_rank := 1 |}).
  by vm_compute.
Defined.

(** C8.  When a title occurs several times, both extraction functions
    keep one entry for it, the one written for its last occurrence:
    content up to that occurrence's own end boundary, and its kind, line
    and rank.  Earlier occurrences leave no trace and nothing is
    reported. *)
Theorem duplicate_title_last_occurrence_wins (doc : text)
    (pre : list occurrence) (o : occurrence) (later : list occurrence) :
  scan_sections 0 (split_nl doc) = pre ++ o :: later ->
  (forall o', o' ∈ later -> occ_title o' <> occ_title o) ->
  let lines := split_nl doc in
  extract_sections doc !! occ_title o
  = Some (section_entry full_end lines o later)
  /\ extract_sections_content_only doc !! occ_title o
     = Some (section_entry content_only_end lines o later)
  /\ entries_for (occ_title o) (extract_sections doc)
     = [(occ_title o, section_entry full_end lines o later)]
  /\ entries_for (occ_title o) (extract_sections_content_only doc)
     = [(occ_title o, section_entry content_only_end lines o later)].
Proof.
  intros Hscan Hlast lines.
  assert (extract_sections doc !! occ_title o
          = Some (section_entry full_end lines o later)) as Hfu.
  { unfold extract_sections. rewrite Hscan.
    by apply second_pass_lookup_last. }
  assert (extract_sections_content_only doc !! occ_title o
          = Some (section_entry content_only_end lines o later)) as Hco.
  { unfold extract_sections_content_only. rewrite Hscan.
    by apply second_pass_lookup_last. }
  split_and!; [done|done|by apply entries_for_lookup..].
Qed.

Lemma duplicate_title_last_occurrence_wins_witness :
  scan_sections 0 (split_nl c8_text)
  = take 2 (scan_sections 0 (split_nl c8_text)) ++ c8_last :: []
  /\ (exists first, first ∈ take 2 (scan_sections 0 (split_nl c8_text))
                    /\ occ_title first = occ_title c8_last
                    /\ occ_level first = section)
  /\ extract_sections c8_text !! lit "A"
     = Some {| content := lit "second"; info_level := subsection;
               info_line := lit "\subsection{A}"; info_rank := 2 |}.
Proof.
  split; [by vm_compute|]. split.
  { eexists. split; [by left|]. by vm_compute. }
  apply (duplicate_title_last_occurrence_wins c8_text
           (take 2 (scan_sections 0 (split_nl c8_text))) c8_last []).
  - by vm_compute.
  - by intros o' ?%elem_of_nil.
Defined.

(** ** The scenarios of the specification *)

(** Scenario A: the body of the destination section is replaced by the
    content of the mapped source section. *)
Example scenario_a :
  migrate_content
    {| mapping_mode := None;
       section_mapping := [(lit "Intro", lit "Introduction")];
       new_sections_content := [] |}
    source_text
    (doc_of_lines ["\section{Introduction}"; "old body"; "\end{document}"])
  = doc_of_lines ["\section{Introduction}"; "Hello"; ""; "\end{document}"].
Proof. by vm_compute. Qed.

(** Scenario E: the two extraction policies on a section with a child. *)
Example scenario_e :
  (content <$> extract_sections_content_only scenario_e_text !! lit "A")
  = Some (lit "text1")
  /\ (content <$> extract_sections scenario_e_text !! lit "A")
     = Some (doc_of_lines ["text1"; "\subsection{B}"; " text2"]).
Proof. split; by vm_compute. Qed.

(** * Further properties of the code *)

(** ** Locator: bounds, misses and the two policies *)

Lemma join_take_length_le (j : nat) (x : text) :
  length (join_nl (take j (split_nl x))) <= length x.
Proof.
  pose proof (prefix_length _ _ (join_nl_take_prefix j (split_nl x))) as H.
  by rewrite join_split in H.
Qed.

Lemma join_take_length_mono (j j' : nat) (ls : list text) :
  j <= j' ->
  length (join_nl (take j ls)) <= length (join_nl (take j' ls)).
Proof.
  intros Hj. apply prefix_length, join_nl_mono.
  replace (take j ls) with (take j (take j' ls))
    by (rewrite take_take; f_equal; lia).
  apply prefix_take.
Qed.

Lemma search_title_end_le (k : level) (title t : text) (i n : nat) :
  re_search (match_title k title) 0 t = Some (i, n) -> i + n <= length t.
Proof.
  intros (starred & (pre & post & -> & <-) & -> & _)%search_title_Some.
  rewrite !length_app. lia.
Qed.

Lemma find_with_patterns_bounds (ks : list level) (t title : text)
    (inc : bool) (s e : nat) (k : level) :
  find_with_patterns ks t title inc = Some (s, e, k) ->
  s <= e <= length t.
Proof.
  intros (i & n & _ & Hs & -> & He)%find_with_patterns_Some.
  apply search_title_end_le in Hs.
  match type of He with
  | e = scan_end ?a ?b ?c ?d ?f ?g ?h =>
      destruct (scan_end_cases a b c d f h g) as [Hd|(j & _ & Hd)];
        rewrite Hd in He
  end.
  - lia.
  - pose proof (join_take_length_le j (drop (i + n) t)) as Hl.
    rewrite length_drop in Hl. lia.
Qed.

(** The span returned by [find_section_in_template] is a span of the
    template: [start_pos <= end_pos <= len(template_content)]. *)
Theorem locator_span_bounds (t title : text) (inc : bool)
    (s e : nat) (k : level) :
  find_section_in_template t title inc = Some (s, e, k) ->
  s <= e <= length t.
Proof.
  unfold find_section_in_template. apply find_with_patterns_bounds.
Qed.

Lemma locator_span_bounds_witness :
  find_section_in_template template_text (lit "Introduction") true
  = Some (40, 74, section)
  /\ 40 <= 74 <= length template_text.
Proof.
  split; [by vm_compute|].
  apply (locator_span_bounds template_text (lit "Introduction") true
           40 74 section).
  by vm_compute.
Defined.

Lemma find_with_patterns_None (ks : list level) (t title : text) (inc : bool) :
  find_with_patterns ks t title inc = None <->
  forall k, k ∈ ks -> re_search (match_title k title) 0 t = None.
Proof.
  induction ks as [|k0 ks IH]; cbn [find_with_patterns].
  { split; [|done]. by intros _ k ?%elem_of_nil. }
  destruct (re_search (match_title k0 title) 0 t) as [[i n]|] eqn:E.
  - split; [done|]. intros H. specialize (H k0). rewrite E in H.
    discriminate H. by left.
  - rewrite IH. split.
    + intros H k [->|?]%elem_of_cons; [done|by apply H].
    + intros H k Hk. apply H. by right.
Qed.

(** [find_section_in_template] returns (None, None, None) exactly when the
    title is written as the argument of none of the five commands,
    starred or not, anywhere in the template. *)
Theorem locator_miss_iff_no_occurrence (t title : text) (inc : bool) :
  find_section_in_template t title inc = None <->
  forall k starred i, ~ marker_at k starred title t i.
Proof.
  unfold find_section_in_template. rewrite find_with_patterns_None. split.
  - intros H k starred i.
    apply (proj1 (search_title_None k title t)), H, elem_of_sections_pattern.
  - intros H k _. apply search_title_None. intros j starred. apply H.
Qed.

Lemma boundaryb_policy (cur : nat) (line : text) :
  boundaryb true cur line = true -> boundaryb false cur line = true.
Proof.
  rewrite !boundaryb_true. intros [?|(k & ? & _)]; [by left|].
  right. by exists k.
Qed.

Lemma scan_end_policy (cur start_pos : nat) (lines : list text)
    (dflt idx : nat) (todo : list text) :
  (forall j, start_pos + length (join_nl (take j lines)) <= dflt) ->
  scan_end false cur start_pos lines dflt idx todo
  <= scan_end true cur start_pos lines dflt idx todo.
Proof.
  intros Hd. revert idx.
  induction todo as [|l0 todo IH]; intros idx; [done|].
  rewrite !scan_end_cons.
  destruct (boundaryb true cur l0) eqn:Et.
  - by rewrite (boundaryb_policy _ _ Et).
  - destruct (boundaryb false cur l0); [|apply IH].
    destruct (scan_end_cases true cur start_pos lines dflt todo (S idx))
      as [->|(j & Hj & ->)].
    + apply Hd.
    + apply Nat.add_le_mono_l, join_take_length_mono. lia.
Qed.

(** The span found without children (granular mode) starts where the
    span found with children starts, has the same kind, and ends no
    later. *)
Theorem locator_granular_span_within_full (t title : text)
    (s e : nat) (k : level) :
  find_section_in_template t title false = Some (s, e, k) ->
  exists e',
    find_section_in_template t title true = Some (s, e', k) /\ e <= e'.
Proof.
  unfold find_section_in_template.
  induction sections_pattern as [|k0 ks IH]; cbn [find_with_patterns];
    [done|].
  destruct (re_search (match_title k0 title) 0 t) as [[i n]|] eqn:E;
    [|exact IH].
  intros [= <- <- <-]. eexists. split; [done|].
  apply scan_end_policy. intros j.
  pose proof (search_title_end_le _ _ _ _ _ E).
  pose proof (join_take_length_le j (drop (i + n) t)) as Hl.
  rewrite length_drop in Hl. lia.
Qed.

Lemma locator_granular_span_within_full_witness :
  find_section_in_template template_text (lit "Introduction") false
  = Some (40, 49, section)
  /\ exists e',
       find_section_in_template template_text (lit "Introduction") true
       = Some (40, e', section) /\ 49 <= e'.
Proof.
  split; [by vm_compute|].
  apply (locator_granular_span_within_full template_text
           (lit "Introduction") 40 49 section).
  by vm_compute.
Defined.

(** ** Marker scanner *)

Lemma sections_pattern_sorted : StronglySorted lt_level_rank sections_pattern.
Proof.
  unfold sections_pattern, lt_level_rank.
  repeat (constructor; [|repeat constructor; simpl; lia]). constructor.
Qed.

Lemma first_marker_None (ks : list level) (idx : nat) (line : text) :
  first_marker ks idx line = None <->
  forall k, k ∈ ks -> search_marker k line = None.
Proof.
  induction ks as [|k0 ks IH]; cbn [first_marker].
  { split; [|done]. by intros _ k ?%elem_of_nil. }
  destruct (search_marker k0 line) as [[p raw]|] eqn:E.
  - split; [done|]. intros H. specialize (H k0). rewrite E in H.
    discriminate H. by left.
  - rewrite IH. split.
    + intros H k [->|?]%elem_of_cons; [done|by apply H].
    + intros H k Hk. apply H. by right.
Qed.

Lemma first_marker_Some (ks : list level) (idx : nat) (line : text)
    (o : occurrence) :
  StronglySorted lt_level_rank ks ->
  first_marker ks idx line = Some o ->
  occ_level o ∈ ks
  /\ is_Some (search_marker (occ_level o) line)
  /\ (forall k', k' ∈ ks -> lt_level_rank k' (occ_level o) ->
        search_marker k' line = None)
  /\ occ_rank o = _get_section_level_rank (occ_level o)
  /\ occ_line_idx o = idx
  /\ occ_line o = strip line.
Proof.
  induction 1 as [|k0 ks Hs IH Hk0]; cbn [first_marker]; [done|].
  destruct (search_marker k0 line) as [[p raw]|] eqn:E.
  - intros [= <-]. simpl. split_and!; [by left|by rewrite E| |done..].
    intros k' [->|Hk']%elem_of_cons Hlt.
    + unfold lt_level_rank in Hlt. lia.
    + rewrite Forall_forall in Hk0. specialize (Hk0 _ Hk').
      unfold lt_level_rank in *. lia.
  - intros (Hin & Hs' & Hlow & ? & ? & ?)%IH.
    split_and!; [by right|done| |done..].
    intros k' [->|Hk']%elem_of_cons Hlt; [done|by apply Hlow].
Qed.

Lemma elem_of_scan_sections (lines : list text) (idx0 : nat) (o : occurrence) :
  o ∈ scan_sections idx0 lines <->
  exists i line,
    lines !! i = Some line
    /\ first_marker sections_pattern (idx0 + i) line = Some o.
Proof.
  revert idx0. induction lines as [|l0 lines IH]; intros idx0;
    cbn [scan_sections].
  { split; [by intros ?%elem_of_nil|]. by intros (i & line & ? & _). }
  assert (o ∈ scan_sections (S idx0) lines <->
          exists i line, (l0 :: lines) !! S i = Some line
            /\ first_marker sections_pattern (idx0 + S i) line = Some o)
    as Htl.
  { rewrite IH. split; intros (i & line & Hi & Hf); exists i, line;
      (split; [done|]); by replace (idx0 + S i) with (S idx0 + i) in * by lia. }
  destruct (first_marker sections_pattern idx0 l0) as [o0|] eqn:E.
  - rewrite elem_of_cons, Htl. split.
    + intros [->|(i & line & ? & ?)].
      * exists 0, l0. by rewrite Nat.add_0_r.
      * by exists (S i), line.
    + intros ([|i] & line & Hi & Hf).
      * left. simpl in Hi. rewrite Nat.add_0_r in Hf. congruence.
      * right. by exists i, line.
  - rewrite Htl. split.
    + intros (i & line & ? & ?). by exists (S i), line.
    + intros ([|i] & line & Hi & Hf).
      * simpl in Hi. rewrite Nat.add_0_r in Hf. congruence.
      * by exists i, line.
Qed.

Lemma rank_le_4 (k : level) : _get_section_level_rank k <= 4.
Proof. destruct k; simpl; lia. Qed.

Lemma scan_sections_ranks (lines : list text) (idx0 : nat) (o : occurrence) :
  o ∈ scan_sections idx0 lines ->
  occ_rank o = _get_section_level_rank (occ_level o) /\ occ_rank o <= 4.
Proof.
  intros (i & line & _ & Hf)%elem_of_scan_sections.
  apply first_marker_Some in Hf as (_ & _ & _ & Hr & _);
    [|apply sections_pattern_sorted].
  rewrite Hr. split; [done|apply rank_le_4].
Qed.

(** The first pass of the extraction functions lists the markers in
    strictly increasing line order (so at most one per line), with line
    numbers of the document and with the rank of their kind, a number from
    0 to 4. *)
Theorem scanner_occurrences_ordered (doc : text) :
  StronglySorted lt_line_idx (scan_sections 0 (split_nl doc))
  /\ Forall (fun o => occ_line_idx o < length (split_nl doc)
                      /\ occ_rank o = _get_section_level_rank (occ_level o)
                      /\ occ_rank o <= 4)
       (scan_sections 0 (split_nl doc)).
Proof.
  split; [apply scan_sections_sorted|].
  apply Forall_forall. intros o Ho.
  pose proof (proj1 (Forall_forall _ _)
                (scan_sections_bounds (split_nl doc) 0) o Ho) as Hb.
  destruct (scan_sections_ranks _ _ _ Ho) as [Hr H4].
  split_and!; [simpl in Hb; lia|done|done].
Qed.

(** Every occurrence reported by the first pass stands for a line of the
    document that carries a marker of the reported kind and no marker of
    a kind that is tried earlier (chapter before section before
    subsection ...); the reported line is that line, trimmed. *)
Theorem scanner_occurrence_sound (doc : text) (o : occurrence) :
  o ∈ scan_sections 0 (split_nl doc) ->
  exists line,
    split_nl doc !! occ_line_idx o = Some line
    /\ has_marker (occ_level o) line
    /\ (forall k', lt_level_rank k' (occ_level o) -> ~ has_marker k' line)
    /\ occ_line o = strip line.
Proof.
  intros (i & line & Hi & Hf)%elem_of_scan_sections.
  apply first_marker_Some in Hf as (_ & Hs & Hlow & _ & Hidx & Hline);
    [|apply sections_pattern_sorted].
  exists line. simpl in Hidx. rewrite Hidx.
  split_and!; [done|by apply has_marker_search| |done].
  intros k' Hlt [? Hm]%has_marker_search.
  rewrite Hlow in Hm; [done|apply elem_of_sections_pattern|done].
Qed.

Lemma scanner_occurrence_sound_witness :
  two_markers_occurrence ∈ scan_sections 0 (split_nl two_markers_text)
  /\ exists line,
       split_nl two_markers_text !! 1 = Some line
       /\ has_marker section line
       /\ (forall k', lt_level_rank k' section -> ~ has_marker k' line)
       /\ lit "\subsection{Inner} \section{Outer}" = strip line.
Proof.
  assert (two_markers_occurrence
          ∈ scan_sections 0 (split_nl two_markers_text)) as Hin.
  { replace (scan_sections 0 (split_nl two_markers_text))
      with [two_markers_occurrence] by (by vm_compute).
    by left. }
  split; [exact Hin|].
  exact (scanner_occurrence_sound two_markers_text two_markers_occurrence Hin).
Defined.

Lemma scan_sections_marked_line (lines : list text) (idx : nat) (line : text)
    (k : level) :
  lines !! idx = Some line ->
  has_marker k line ->
  exists o,
    o ∈ scan_sections 0 lines
    /\ occ_line_idx o = idx
    /\ _get_section_level_rank (occ_level o) <= _get_section_level_rank k.
Proof.
  intros Hi Hm.
  destruct (first_marker sections_pattern idx line) as [o|] eqn:E.
  - exists o.
    pose proof (first_marker_Some _ _ _ _ sections_pattern_sorted E)
      as (_ & _ & Hlow & _ & Hidx & _).
    split_and!; [|done|].
    + apply elem_of_scan_sections. by exists idx, line.
    + destruct (Nat.le_gt_cases (_get_section_level_rank (occ_level o))
                  (_get_section_level_rank k)) as [?|Hlt]; [done|].
      apply has_marker_search in Hm as [? Hm].
      rewrite Hlow in Hm; [done|apply elem_of_sections_pattern|done].
  - apply has_marker_search in Hm as [? Hm].
    rewrite (proj1 (first_marker_None _ _ _) E) in Hm;
      [done|apply elem_of_sections_pattern].
Qed.

(** Every line that carries a marker is reported, once, under the first
    kind in the order of the patterns that the line matches. *)
Theorem scanner_complete (doc : text) (idx : nat) (line : text) (k : level) :
  split_nl doc !! idx = Some line ->
  has_marker k line ->
  exists o,
    o ∈ scan_sections 0 (split_nl doc)
    /\ occ_line_idx o = idx
    /\ _get_section_level_rank (occ_level o) <= _get_section_level_rank k.
Proof. apply scan_sections_marked_line. Qed.

Lemma scanner_complete_witness :
  split_nl two_markers_text !! 1
  = Some (lit "\subsection{Inner} \section{Outer}")
  /\ exists o,
       o ∈ scan_sections 0 (split_nl two_markers_text)
       /\ occ_line_idx o = 1
       /\ _get_section_level_rank (occ_level o)
          <= _get_section_level_rank subsection.
Proof.
  split; [by vm_compute|].
  apply (scanner_complete two_markers_text 1
           (lit "\subsection{Inner} \section{Outer}") subsection).
  - by vm_compute.
  - exists [], false, (lit "Inner"), (lit " \section{Outer}").
    split_and!; [done| |by vm_compute].
    apply (bool_decide_unpack _). by vm_compute.
Defined.

(** ** Extraction: titles and content-only lines *)

Lemma second_pass_is_Some (find_end : nat -> list occurrence -> nat -> nat)
    (lines : list text) (occs : list occurrence)
    (m : gmap text section_info) (title : text) :
  is_Some (second_pass find_end lines occs m !! title) <->
  is_Some (m !! title) \/ exists o, o ∈ occs /\ occ_title o = title.
Proof.
  revert m. induction occs as [|o later IH]; intros m; cbn [second_pass].
  { split; [by left|]. intros [?|(o & ?%elem_of_nil & _)]; done. }
  rewrite IH. destruct (decide (occ_title o = title)) as [<-|Hne].
  - rewrite lookup_insert_eq. split.
    + intros _. right. exists o. split; [by left|done].
    + intros _. by left.
  - rewrite lookup_insert_ne by done. split.
    + intros [?|(o' & ? & ?)]; [by left|]. right. exists o'.
      split; [by right|done].
    + intros [?|(o' & [->|?]%elem_of_cons & ?)]; [by left|done|].
      right. by exists o'.
Qed.

(** Both extraction functions return an entry for exactly the titles of
    the markers found by the first pass. *)
Theorem extracted_titles_are_scanned_titles (doc title : text) :
  (is_Some (extract_sections doc !! title) <->
   exists o, o ∈ scan_sections 0 (split_nl doc) /\ occ_title o = title)
  /\ (is_Some (extract_sections_content_only doc !! title) <->
      exists o, o ∈ scan_sections 0 (split_nl doc) /\ occ_title o = title).
Proof.
  unfold extract_sections, extract_sections_content_only.
  rewrite !second_pass_is_Some, lookup_empty.
  split; (split; [intros [[? [=]]|?]; done|by right]).
Qed.

Lemma second_pass_lookup_Some (find_end : nat -> list occurrence -> nat -> nat)
    (lines : list text) (occs : list occurrence)
    (m : gmap text section_info) (title : text) (e : section_info) :
  second_pass find_end lines occs m !! title = Some e ->
  m !! title = Some e
  \/ exists pre o later,
       occs = pre ++ o :: later /\ occ_title o = title
       /\ e = section_entry find_end lines o later.
Proof.
  revert m. induction occs as [|o later IH]; intros m; cbn [second_pass];
    [by left|].
  intros [Hm|(pre & o' & later' & -> & ? & ?)]%IH.
  - destruct (decide (occ_title o = title)) as [<-|Hne].
    + rewrite lookup_insert_eq in Hm. right. exists [], o, later.
      split_and!; [done|done|congruence].
    + rewrite lookup_insert_ne in Hm by done. by left.
  - right. by exists (o :: pre), o', later'.
Qed.

Lemma elem_of_slice {A} (a b : nat) (l : list A) (x : A) :
  x ∈ slice a b l -> exists i, a <= i < b /\ l !! i = Some x.
Proof.
  unfold slice. intros (i & Hi)%list_elem_of_lookup.
  apply lookup_take_Some in Hi as [Hi Hlt].
  rewrite lookup_drop in Hi. exists (a + i). split; [lia|done].
Qed.

(** The content that [extract_sections_content_only] stores for a title
    is made of lines that carry no marker: it is the trimmed join of a
    run of marker-free lines of the document. *)
Theorem content_only_has_no_marker_line (doc title : text)
    (co : section_info) :
  extract_sections_content_only doc !! title = Some co ->
  exists a b,
    content co = strip (join_nl (slice a b (split_nl doc)))
    /\ forall l k, l ∈ slice a b (split_nl doc) -> ~ has_marker k l.
Proof.
  intros H.
  apply second_pass_lookup_Some in H as [H|(pre & o & later & Hocc & _ & ->)].
  { by rewrite lookup_empty in H. }
  exists (S (occ_line_idx o)),
    (content_only_end (occ_rank o) later (length (split_nl doc))).
  split; [done|].
  intros l k (i & [Hlo Hhi] & Hi)%elem_of_slice Hm.
  destruct (scan_sections_marked_line _ i l k Hi Hm) as (o' & Ho' & Hidx & _).
  pose proof (scan_sections_sorted (split_nl doc) 0) as Hs.
  rewrite Hocc in Hs, Ho'.
  apply StronglySorted_app in Hs as (Hpre & _ & Hs).
  apply StronglySorted_cons in Hs as [Hlater Hs].
  apply elem_of_app in Ho' as [Ho'|[->|Ho']%elem_of_cons].
  - specialize (Hpre o' o Ho'). unfold lt_line_idx in Hpre.
    specialize (Hpre ltac:(by left)). lia.
  - lia.
  - destruct later as [|o1 later]; [by apply elem_of_nil in Ho'|].
    simpl in Hhi. apply elem_of_cons in Ho' as [->|Ho']; [lia|].
    apply StronglySorted_cons in Hs as [Ho1 _].
    rewrite Forall_forall in Ho1. specialize (Ho1 _ Ho').
    unfold lt_line_idx in Ho1. lia.
Qed.

Lemma content_only_has_no_marker_line_witness :
  extract_sections_content_only scenario_e_text !! lit "A"
  = Some {| content := lit "text1"; info_level := section;
            info_line := lit "\section{A}"; info_rank := 1 |}
  /\ exists a b,
       lit "text1" = strip (join_nl (slice a b (split_nl scenario_e_text)))
       /\ forall l k, l ∈ slice a b (split_nl scenario_e_text) ->
                      ~ has_marker k l.
Proof.
  split; [by vm_compute|].
  apply (content_only_has_no_marker_line scenario_e_text (lit "A")
           {| content := lit "text1"; info_level := section;
              info_line := lit "\section{A}"; info_rank := 1 |}).
  by vm_compute.
Defined.

(** ** Collected operations *)

(** The first loop of [migrate_content] records an operation for exactly
    the entries of [section_mapping] whose source title was extracted and
    whose destination title was located: the operation carries the located
    span and the trimmed content of the source section. *)
Theorem mapping_operations_characterised
    (old_sections : gmap text section_info) (new_content : text)
    (inc : bool) (mapping : list (text * text)) (r : replacement) :
  r ∈ collect_section_mapping old_sections new_content inc mapping <->
  exists old_section new_section info start_pos end_pos k,
    (old_section, new_section) ∈ mapping
    /\ old_sections !! old_section = Some info
    /\ find_section_in_template new_content new_section inc
       = Some (start_pos, end_pos, k)
    /\ r = mapping_replacement old_section new_section info start_pos end_pos.
Proof.
  induction mapping as [|[o n] mapping IH]; cbn [collect_section_mapping].
  { split; [by intros ?%elem_of_nil|].
    by intros (? & ? & ? & ? & ? & ? & ?%elem_of_nil & _). }
  assert (r ∈ collect_section_mapping old_sections new_content inc mapping
          -> exists old_section new_section info start_pos end_pos k,
               (old_section, new_section) ∈ (o, n) :: mapping
               /\ old_sections !! old_section = Some info
               /\ find_section_in_template new_content new_section inc
                  = Some (start_pos, end_pos, k)
               /\ r = mapping_replacement old_section new_section info
                        start_pos end_pos) as Htl.
  { intros (o' & n' & info & s & e & k & ? & ?)%IH.
    exists o', n', info, s, e, k. split; [by right|done]. }
  destruct (old_sections !! o) as [info0|] eqn:Eo.
  - destruct (find_section_in_template new_content n inc)
      as [[[s0 e0] k0]|] eqn:Ef.
    + rewrite elem_of_cons. split.
      * intros [->|?]; [|by apply Htl].
        exists o, n, info0, s0, e0, k0. split_and!; [by left|done..].
      * intros (o' & n' & info & s & e & k & [[= -> ->]|Hin]%elem_of_cons
                & Ho & Hf & ->).
        -- left. rewrite Eo in Ho. rewrite Ef in Hf. by simplify_eq.
        -- right. apply IH. by exists o', n', info, s, e, k.
    + split; [done|].
      intros (o' & n' & info & s & e & k & [[= -> ->]|Hin]%elem_of_cons
              & Ho & Hf & ->); [congruence|].
      apply IH. by exists o', n', info, s, e, k.
  - split; [done|].
    intros (o' & n' & info & s & e & k & [[= -> ->]|Hin]%elem_of_cons
            & Ho & Hf & ->); [congruence|].
    apply IH. by exists o', n', info, s, e, k.
Qed.

Lemma collect_new_sections_elem (t : text) (inc : bool)
    (entries : list (text * text)) (r : replacement) :
  r ∈ (collect_new_sections t inc entries).1 ->
  exists c k,
    (r_new_section r, c) ∈ entries
    /\ r_content r = strip c
    /\ find_section_in_template t (r_new_section r) inc
       = Some (r_start r, r_end r, k).
Proof.
  induction entries as [|[title c] entries IH]; cbn [collect_new_sections].
  { by intros ?%elem_of_nil. }
  destruct (collect_new_sections t inc entries) as [reps to_create].
  assert (r ∈ reps -> exists c' k,
            (r_new_section r, c') ∈ (title, c) :: entries
            /\ r_content r = strip c'
            /\ find_section_in_template t (r_new_section r) inc
               = Some (r_start r, r_end r, k)) as Htl.
  { intros (c' & k & ? & ?)%IH. exists c', k. split; [by right|done]. }
  destruct (find_section_in_template t title inc) as [[[s e] k]|] eqn:Ef;
    simpl; [|done].
  intros [->|?]%elem_of_cons; [|by apply Htl].
  exists c, k. simpl. split_and!; [by left|done..].
Qed.

(** Every operation handed to the second pass replaces a span of the
    untouched destination text: [0 <= start <= end <= len(new_content)],
    the span the locator returns for the operation's destination title. *)
Theorem collected_operations_are_spans (cfg : config)
    (old_content new_content : text) (r : replacement) :
  r ∈ replacements_of cfg old_content new_content ->
  span_in new_content r
  /\ exists k,
       find_section_in_template new_content (r_new_section r)
         (include_children_in_search cfg)
       = Some (r_start r, r_end r, k).
Proof.
  unfold replacements_of. intros [Hr|Hr]%elem_of_app.
  - apply collect_section_mapping_elem in Hr as (_ & _ & _ & k & Hf).
    split; [|by exists k]. apply find_with_patterns_bounds in Hf.
    unfold span_in. lia.
  - apply collect_new_sections_elem in Hr as (c & k & _ & _ & Hf).
    split; [|by exists k]. apply find_with_patterns_bounds in Hf.
    unfold span_in. lia.
Qed.

Lemma collected_operations_are_spans_witness :
  mapping_replacement (lit "Intro") (lit "Introduction")
    {| content := lit "Hello"; info_level := section;
       info_line := lit "\section{Intro}"; info_rank := 1 |} 40 74
  ∈ replacements_of scenario_a_cfg source_text template_text
  /\ 40 <= 74 <= length template_text.
Proof.
  assert (mapping_replacement (lit "Intro") (lit "Introduction")
            {| content := lit "Hello"; info_level := section;
               info_line := lit "\section{Intro}"; info_rank := 1 |} 40 74
          ∈ replacements_of scenario_a_cfg source_text template_text) as Hin.
  { replace (replacements_of scenario_a_cfg source_text template_text)
      with [mapping_replacement (lit "Intro") (lit "Introduction")
              {| content := lit "Hello"; info_level := section;
                 info_line := lit "\section{Intro}"; info_rank := 1 |} 40 74]
      by (by vm_compute).
    by left. }
  split; [exact Hin|].
  destruct (collected_operations_are_spans _ _ _ _ Hin) as [[H1 H2] _].
  exact (conj H1 H2).
Defined.

(** ** Splice: order of collection and untouched text *)

(** With pairwise distinct starts the result of the second pass does not
    depend on the order in which the operations were collected. *)
Theorem splice_independent_of_collection_order (t : text)
    (ops ops' : list replacement) :
  ops ≡ₚ ops' ->
  NoDup (r_start <$> ops) ->
  apply_replacements t ops = apply_replacements t ops'.
Proof.
  intros Hp Hnd. unfold apply_replacements. f_equal.
  apply (StronglySorted_unique_strong (flip lt_start)).
  - unfold flip, lt_start. intros; lia.
  - by apply sort_desc_sorted.
  - apply sort_desc_sorted. by rewrite <- Hp.
  - by rewrite !sort_desc_Permutation.
Qed.

Lemma splice_independent_of_collection_order_witness :
  apply_replacements c1_text [c1_op 6 9 "y"; c1_op 2 4 "x"]
  = apply_replacements c1_text [c1_op 2 4 "x"; c1_op 6 9 "y"].
Proof.
  apply splice_independent_of_collection_order.
  - apply perm_swap.
  - apply (bool_decide_unpack _). by vm_compute.
Defined.

Lemma gaps_contains (k : nat) (t : text) (ops : list replacement)
    (r : replacement) :
  r ∈ ops ->
  exists pre post, gaps k t ops = pre ++ nl :: r_content r ++ nl :: post.
Proof.
  revert k. induction ops as [|x ops IH]; intros k; cbn [gaps].
  { by intros ?%elem_of_nil. }
  intros [->|Hin]%elem_of_cons.
  - by exists (slice k (r_start x) t), (gaps (r_end x) t ops).
  - destruct (IH (r_end x) Hin) as (pre & post & ->).
    exists (slice k (r_start x) t ++ nl :: r_content x ++ nl :: pre), post.
    rewrite <- !app_assoc. simpl. by rewrite <- !app_assoc.
Qed.

Lemma gaps_suffix (k k' : nat) (t : text) (ops : list replacement) :
  k <= k' ->
  Forall (fun r => r_end r <= k') ops ->
  drop k' t `suffix_of` gaps k t ops.
Proof.
  revert k. induction ops as [|x ops IH]; intros k Hk Hends; cbn [gaps].
  - replace (drop k' t) with (drop (k' - k) (drop k t))
      by (rewrite drop_drop; f_equal; lia).
    apply suffix_drop.
  - apply Forall_cons in Hends as [Hx Hends].
    apply suffix_app_r, suffix_cons_r, suffix_app_r, suffix_cons_r.
    by apply IH.
Qed.

Lemma splice_as_gaps (t : text) (ops : list replacement) (k : nat) :
  Forall (span_in t) ops ->
  pairwise disjoint_spans ops ->
  NoDup (r_start <$> ops) ->
  Forall (fun r => k <= r_start r) ops ->
  k <= length t ->
  apply_replacements t ops = take k t ++ gaps k t (sort_asc ops).
Proof.
  intros Hwf Hpw Hnd Hk Hkt. unfold apply_replacements.
  rewrite (sort_desc_reverse_asc _ Hnd), fold_left_reverse.
  apply foldr_apply_gaps, sorted_chain.
  - by apply sort_asc_sorted.
  - rewrite sort_asc_Permutation. exact Hwf.
  - intros a b Ha Hb. rewrite sort_asc_Permutation in Ha, Hb.
    by apply (pairwise_disjoint_ordered t ops).
  - by rewrite sort_asc_Permutation.
  - done.
Qed.

(** For operations on pairwise disjoint spans of the text with pairwise
    distinct starts, the second pass leaves the text in front of the
    leftmost span and the text behind the rightmost span as they are, and
    the result contains the content of every operation between two
    newlines. *)
Theorem splice_keeps_text_outside_spans (t : text) (ops : list replacement)
    (k1 k2 : nat) :
  Forall (span_in t) ops ->
  pairwise disjoint_spans ops ->
  NoDup (r_start <$> ops) ->
  Forall (fun r => k1 <= r_start r /\ r_end r <= k2) ops ->
  take k1 (apply_replacements t ops) = take k1 t
  /\ drop k2 t `suffix_of` apply_replacements t ops
  /\ forall r, r ∈ ops ->
       exists pre post,
         apply_replacements t ops = pre ++ nl :: r_content r ++ nl :: post.
Proof.
  intros Hwf Hpw Hnd Hk.
  assert (ops = [] \/ k1 <= length t) as [->|Hk1].
  { destruct ops as [|r ops]; [by left|right].
    apply Forall_cons in Hk as [[? _] _].
    apply Forall_cons in Hwf as [[? ?] _]. lia. }
  { split_and!; [done|apply suffix_drop|by intros r ?%elem_of_nil]. }
  split_and!.
  - rewrite (splice_as_gaps t ops k1 Hwf Hpw Hnd); [| |done].
    + rewrite take_app_le by (rewrite length_take; lia).
      rewrite take_take. f_equal. lia.
    + eapply Forall_impl; [exact Hk|]. by intros ? [? ?].
  - rewrite (splice_as_gaps t ops 0 Hwf Hpw Hnd);
      [|apply Forall_forall; intros; lia|lia].
    simpl. apply gaps_suffix; [lia|].
    rewrite sort_asc_Permutation.
    eapply Forall_impl; [exact Hk|]. by intros ? [? ?].
  - intros r Hr.
    rewrite (splice_as_gaps t ops 0 Hwf Hpw Hnd);
      [|apply Forall_forall; intros; lia|lia].
    simpl. apply gaps_contains. by rewrite sort_asc_Permutation.
Qed.

Lemma splice_keeps_text_outside_spans_witness :
  take 2 (apply_replacements c1_text [c1_op 6 9 "y"; c1_op 2 4 "x"])
  = take 2 c1_text
  /\ drop 9 c1_text
     `suffix_of` apply_replacements c1_text [c1_op 6 9 "y"; c1_op 2 4 "x"].
Proof.
  destruct (splice_keeps_text_outside_spans c1_text
              [c1_op 6 9 "y"; c1_op 2 4 "x"] 2 9) as (H1 & H2 & _).
  - solve_spans.
  - solve_spans.
  - apply (bool_decide_unpack _). by vm_compute.
  - repeat constructor; simpl; lia.
  - by split.
Defined.

(** ** Terminator matches and post-processing *)

Lemma match_end_document_Some (s : text) (n : nat) :
  match_end_document s = Some n <->
  n = 14 /\ exists post, s = end_document ++ post.
Proof. unfold match_end_document. by rewrite match_literal_Some. Qed.

(** The terminator cannot overlap itself: behind the start of a match no
    match starts before the match is over. *)
Lemma match_end_document_no_overlap (s : text) (n q : nat) :
  match_end_document s = Some n -> 0 < q < 14 ->
  match_end_document (drop q s) = None.
Proof.
  intros [_ [post ->]]%match_end_document_Some Hq.
  do 14 (destruct q as [|q]; [try lia; reflexivity|]). lia.
Qed.

Lemma terminator_at_match (t : text) (i : nat) :
  terminator_at t i <->
  i <= length t /\ match_end_document (drop i t) = Some 14.
Proof.
  split.
  - intros (pre & post & -> & <-). split; [rewrite length_app; lia|].
    rewrite drop_app_length. apply match_end_document_Some. eauto.
  - intros [Hi [_ [post Hp]]%match_end_document_Some].
    exists (take i t), post. rewrite <- Hp, take_drop.
    split; [done|]. rewrite length_take. lia.
Qed.

Lemma terminator_at_has_terminator (t : text) (i : nat) :
  terminator_at t i -> has_terminator t.
Proof. intros (pre & post & -> & _). by exists pre, post. Qed.

Lemma has_terminator_at (t : text) :
  has_terminator t -> exists i, terminator_at t i.
Proof. intros (pre & post & ->). by exists (length pre), pre, post. Qed.

Lemma re_finditer_elem (s : text) (skip off : nat) (x : nat * nat) :
  (forall q, q < skip -> match_end_document (drop q s) = None) ->
  x ∈ re_finditer match_end_document skip off s <->
  exists j, x = (off + j, off + j + 14) /\ j <= length s
            /\ match_end_document (drop j s) = Some 14.
Proof.
  revert skip off. induction s as [|c s IH]; intros skip off Hskip.
  - destruct skip; simpl.
    + split; [by intros ?%elem_of_nil|].
      intros (j & _ & Hj & Hm). by destruct j.
    + split; [by intros ?%elem_of_nil|].
      intros (j & _ & Hj & Hm). by destruct j.
  - assert (forall skip', (forall q, q < skip' ->
                match_end_document (drop q s) = None) ->
              (x ∈ re_finditer match_end_document skip' (S off) s <->
               exists j, x = (off + S j, off + S j + 14)
                         /\ S j <= length (c :: s)
                         /\ match_end_document (drop (S j) (c :: s))
                            = Some 14)) as Htl.
    { intros skip' Hs'. rewrite (IH skip' (S off) Hs').
      split; intros (j & -> & Hj & Hm); exists j;
        (split_and!; [f_equal; lia|simpl in *; lia|done]). }
    destruct skip as [|skip].
    + cbn [re_finditer].
      destruct (match_end_document (c :: s)) as [n|] eqn:E.
      * pose proof (proj1 (match_end_document_Some _ _) E) as [-> _].
        rewrite elem_of_cons, Htl.
        -- split.
           ++ intros [->|(j & ? & ? & ?)].
              ** exists 0. rewrite Nat.add_0_r.
                 split_and!; [done|simpl; lia|done].
              ** by exists (S j).
           ++ intros ([|j] & -> & Hj & Hm).
              ** left. by rewrite Nat.add_0_r.
              ** right. by exists j.
        -- intros q Hq. simpl in Hq.
           apply (match_end_document_no_overlap (c :: s) 14 (S q) E). lia.
      * rewrite Htl by (intros; lia). split.
        -- intros (j & ? & ? & ?). by exists (S j).
        -- intros ([|j] & -> & Hj & Hm); [simpl in Hm; congruence|].
           by exists j.
    + cbn [re_finditer]. rewrite Htl.
      * split.
        -- intros (j & ? & ? & ?). by exists (S j).
        -- intros ([|j] & -> & Hj & Hm).
           ++ rewrite (Hskip 0) in Hm by lia. done.
           ++ by exists j.
      * intros q Hq. apply (Hskip (S q)). lia.
Qed.

Lemma re_finditer_lower (m : text -> option nat) (s : text)
    (skip off : nat) :
  Forall (fun x => off + skip <= x.1)
    (re_finditer m skip off s).
Proof.
  revert skip off. induction s as [|c s IH]; intros skip off.
  - destruct skip; simpl; [|constructor].
    destruct (m []); repeat constructor. simpl. lia.
  - destruct skip as [|skip]; cbn [re_finditer].
    + destruct (m (c :: s)) as [n|].
      * constructor; [simpl; lia|].
        eapply Forall_impl; [apply IH|]. simpl. intros; lia.
      * eapply Forall_impl; [apply IH|]. simpl. intros; lia.
    + eapply Forall_impl; [apply IH|]. simpl. intros; lia.
Qed.

Lemma re_finditer_sorted (m : text -> option nat) (s : text)
    (skip off : nat) :
  StronglySorted match_before (re_finditer m skip off s).
Proof.
  revert skip off. induction s as [|c s IH]; intros skip off.
  - destruct skip; simpl; [|constructor].
    destruct (m []); repeat constructor.
  - destruct skip as [|skip]; cbn [re_finditer]; [|apply IH].
    destruct (m (c :: s)) as [n|]; [|apply IH].
    constructor; [apply IH|].
    eapply Forall_impl; [apply re_finditer_lower|].
    unfold match_before. simpl. intros; lia.
Qed.

Lemma terminator_match_elem (t : text) (a b : nat) :
  (a, b) ∈ re_finditer match_end_document 0 0 t
  <-> terminator_at t a /\ b = a + 14.
Proof.
  rewrite re_finditer_elem by (intros; lia).
  rewrite terminator_at_match. split.
  - intros (j & [= -> ->] & ? & ?). done.
  - intros [[? ?] ->]. by exists a.
Qed.

(** [re.finditer] for the terminator reports exactly the places where the
    terminator is written, each with its 14 characters, from left to
    right and without overlap. *)
Theorem finditer_reports_terminators (t : text) :
  (forall a b,
     (a, b) ∈ re_finditer match_end_document 0 0 t
     <-> terminator_at t a /\ b = a + 14)
  /\ StronglySorted match_before (re_finditer match_end_document 0 0 t).
Proof.
  split; [|apply re_finditer_sorted].
  intros a b. apply terminator_match_elem.
Qed.

Lemma sorted_matches_unique (l l' : list (nat * nat)) :
  StronglySorted match_before l ->
  StronglySorted match_before l' ->
  (forall x, x ∈ l -> x.1 < x.2) ->
  (forall x, x ∈ l <-> x ∈ l') ->
  l = l'.
Proof.
  intros Hs Hs' Hpos Hiff.
  assert (forall k : list (nat * nat),
            StronglySorted match_before k ->
            (forall x, x ∈ k -> x.1 < x.2) -> NoDup k) as Hnd.
  { induction 1 as [|x k Hk IHk Hx]; intros Hp; constructor.
    - intros Hin. rewrite Forall_forall in Hx. specialize (Hx _ Hin).
      specialize (Hp x ltac:(by left)). unfold match_before in Hx. lia.
    - apply IHk. intros y Hy. apply Hp. by right. }
  apply (StronglySorted_unique_strong match_before); [|done..|].
  - intros x y Hx Hy. unfold match_before.
    pose proof (Hpos x Hx). pose proof (Hpos y (proj2 (Hiff y) Hy)).
    intros ? ?. lia.
  - apply NoDup_Permutation; [by apply Hnd| |done].
    apply Hnd; [done|]. intros x Hx. by apply Hpos, Hiff.
Qed.

Lemma finditer_eq (t : text) (starts : list nat) :
  StronglySorted match_before ((fun a => (a, a + 14)) <$> starts) ->
  (forall a, terminator_at t a <-> a ∈ starts) ->
  re_finditer match_end_document 0 0 t = (fun a => (a, a + 14)) <$> starts.
Proof.
  intros Hs Hiff.
  pose proof (terminator_match_elem t) as Hel.
  pose proof (re_finditer_sorted match_end_document t 0 0) as Hsorted.
  apply sorted_matches_unique; [done|done| |].
  - intros [a b] [_ ->]%Hel. simpl. lia.
  - intros [a b]. rewrite Hel, list_elem_of_fmap. split.
    + intros [Ha ->]. exists a. by rewrite <- Hiff.
    + intros (a' & [= -> ->] & Ha'). by rewrite Hiff.
Qed.

Lemma sorted_last_max (l : list (nat * nat)) (z : nat * nat) :
  StronglySorted match_before l -> last l = Some z ->
  forall x, x ∈ l -> x = z \/ match_before x z.
Proof.
  induction 1 as [|y l Hl IH Hy]; [done|].
  destruct l as [|y' l'].
  - intros [= <-] x [->|?%elem_of_nil]%elem_of_cons; [by left|done].
  - intros Hlast x [->|Hx]%elem_of_cons.
    + right. rewrite Forall_forall in Hy. apply Hy.
      change (last (y :: y' :: l')) with (last (y' :: l')) in Hlast.
      by apply last_Some_elem_of.
    + by apply IH.
Qed.

(** A text with exactly two terminators: the first one is cut out, every
    other character stays, and [last_match] is the last terminator of the
    text that results. *)
Theorem dedup_two_terminators_removes_first (t : text) (i j : nat) :
  i < j ->
  (forall p, terminator_at t p <-> p = i \/ p = j) ->
  let t' := take i t ++ drop (i + 14) t in
  (dedup_end_document t).1 = t'
  /\ exists a, (dedup_end_document t).2 = Some (a, a + 14)
               /\ terminator_at t' a
               /\ forall a', terminator_at t' a' -> a' <= a.
Proof.
  intros Hij Hocc t'.
  assert (re_finditer match_end_document 0 0 t = [(i, i + 14); (j, j + 14)])
    as Hfind.
  { apply (finditer_eq t [i; j]).
    - assert (i + 14 <= j) as Hgap.
      { destruct (Nat.le_gt_cases (i + 14) j) as [?|Hlt]; [done|].
        pose proof (proj2 (Hocc i) (or_introl eq_refl)) as Hi.
        pose proof (proj2 (Hocc j) (or_intror eq_refl)) as Hj.
        apply terminator_at_match in Hi as [_ Hi], Hj as [_ Hj].
        pose proof (match_end_document_no_overlap _ _ (j - i) Hi
                      ltac:(lia)) as Hno.
        rewrite drop_drop in Hno.
        replace (i + (j - i)) with j in Hno by lia. congruence. }
      repeat constructor. unfold match_before. simpl. lia.
    - intros a. by rewrite Hocc, elem_of_cons, list_elem_of_singleton. }
  unfold dedup_end_document. rewrite Hfind. simpl.
  fold t'. split; [done|].
  pose proof (terminator_match_elem t') as Hel.
  pose proof (re_finditer_sorted match_end_document t' 0 0) as Hsorted.
  assert (terminator_at t' (j - 14)) as Hj'.
  { assert (i + 14 <= j) as Hgap.
    { assert ((i, i + 14) ∈ re_finditer match_end_document 0 0 t) as H1
        by (rewrite Hfind; by left).
      pose proof (re_finditer_sorted match_end_document t 0 0) as Hs.
      rewrite Hfind in Hs. apply StronglySorted_cons in Hs as [Hs _].
      apply Forall_cons in Hs as [Hs _]. exact Hs. }
    destruct (proj2 (Hocc j) (or_intror eq_refl)) as (pre & post & Ht & Hlen).
    exists (take i t ++ drop (i + 14) pre), post. split.
    - unfold t'. rewrite Ht at 2.
      rewrite drop_app_le by lia. by rewrite <- app_assoc.
    - rewrite length_app, length_take, length_drop.
      assert (j <= length t) by (rewrite Ht, length_app; lia). lia. }
  destruct (last (re_finditer match_end_document 0 0 t')) as [[a b]|] eqn:El.
  - pose proof (last_Some_elem_of _ _ El) as Hin.
    apply Hel in Hin as [Ha ->].
    exists a. split_and!; [done|done|].
    intros a' Ha'.
    assert ((a', a' + 14) ∈ re_finditer match_end_document 0 0 t') as Hin'
      by (by apply Hel).
    destruct (sorted_last_max _ _ Hsorted El _ Hin') as [[= ->]|Hb]; [done|].
    unfold match_before in Hb. simpl in Hb. lia.
  - apply last_None in El.
    assert ((j - 14, j - 14 + 14) ∈ re_finditer match_end_document 0 0 t')
      as Hin by (by apply Hel).
    rewrite El in Hin. by apply elem_of_nil in Hin.
Qed.

Lemma dedup_two_terminators_removes_first_witness :
  (dedup_end_document two_terminators_text).1
  = take 1 two_terminators_text ++ drop (1 + 14) two_terminators_text
  /\ take 1 two_terminators_text ++ drop (1 + 14) two_terminators_text
     = lit "AB\end{document}C".
Proof.
  split; [|by vm_compute].
  apply (dedup_two_terminators_removes_first two_terminators_text 1 16).
  - lia.
  - intros p.
    pose proof (terminator_match_elem two_terminators_text) as Hel.
    replace (re_finditer match_end_document 0 0 two_terminators_text)
      with [(1, 15); (16, 30)] in Hel by (by vm_compute).
    specialize (Hel p (p + 14)). split.
    + intros Hp.
      assert ((p, p + 14) ∈ [(1, 15); (16, 30)]) as Hin by (by apply Hel).
      apply elem_of_cons in Hin as [[= ->]|Hin]; [by left|].
      apply list_elem_of_singleton in Hin as [= ->]. by right.
    + intros [-> | ->]; apply Hel.
      * by left.
      * right. by left.
Defined.

Lemma finditer_no_terminator (t : text) :
  ~ has_terminator t -> re_finditer match_end_document 0 0 t = [].
Proof.
  intros Hno. apply (finditer_eq t []); [constructor|].
  intros a. split; [|by intros ?%elem_of_nil].
  intros Ha. destruct Hno. by eapply terminator_at_has_terminator.
Qed.

Lemma post_process_no_terminator (t : text) :
  ~ has_terminator t -> post_process t = t.
Proof.
  intros Hno. unfold post_process, dedup_end_document.
  by rewrite (finditer_no_terminator t Hno).
Qed.

Lemma create_sections_no_terminator
    (news olds : gmap text section_info) (pending : list (text * text))
    (t : text) :
  ~ has_terminator t -> create_sections news olds pending t = t.
Proof.
  intros Hno. unfold create_sections.
  destruct pending as [|entry pending]; [done|].
  destruct (re_search match_end_document 0 t) as [[p n]|] eqn:E; [|done].
  destruct Hno. apply has_terminator_search. by rewrite E.
Qed.

(** When the spliced text holds no terminator the result of the run is
    the spliced text: the sections that were to be created are left out
    (only a warning is logged) and no clean-up is done. *)
Theorem migrate_without_terminator (cfg : config)
    (old_content new_content : text) :
  ~ has_terminator (spliced_content cfg old_content new_content) ->
  migrate_content cfg old_content new_content
  = spliced_content cfg old_content new_content.
Proof.
  intros Hno. unfold migrate_content.
  rewrite create_sections_no_terminator by done.
  by apply post_process_no_terminator.
Qed.

Lemma migrate_without_terminator_witness :
  migrate_content c3_new_content_cfg source_text no_terminator_text
  = no_terminator_text.
Proof.
  transitivity (spliced_content c3_new_content_cfg source_text
                  no_terminator_text); [|by vm_compute].
  apply migrate_without_terminator.
  intros [? H]%has_terminator_search. by vm_compute in H.
Defined.

Lemma match_section_open_cons (k : level) (alts : list level) (s : text) :
  match_section_open (k :: alts) s
  = match match_section_open [k] s with
    | Some u => Some u
    | None => match_section_open alts s
    end.
Proof. cbn [match_section_open]. by repeat case_match. Qed.

Lemma match_section_open_single (k : level) (s : text) :
  match_section_open [k] s = Some () <->
  exists starred post, s = section_open_text k starred ++ post.
Proof.
  cbn [match_section_open]. unfold section_open_text.
  destruct (strip_prefix (backslash :: level_name k) s) as [r|] eqn:E.
  - apply strip_prefix_Some in E as ->. split.
    + destruct r as [|c r1]; [done|].
      destruct (Ascii.eqb_spec c star) as [->|Hc].
      * destruct r1 as [|c1 r2]; [done|].
        destruct (Ascii.eqb_spec c1 lbrace) as [->|Hc1]; [|done].
        intros _. exists true, r2. simpl. by rewrite <- !app_assoc.
      * destruct (Ascii.eqb_spec c lbrace) as [->|?]; [|done].
        intros _. exists false, r1. simpl. by rewrite <- !app_assoc.
    + intros (starred & post & H).
      assert (r = (if starred then [star] else []) ++ [lbrace] ++ post)
        as ->.
      { simpl in H. rewrite <- !app_assoc in H. simplify_eq/=.
        by simplify_list_eq. }
      by destruct starred.
  - split; [done|]. intros (starred & post & ->).
    assert (strip_prefix (backslash :: level_name k)
              ((backslash :: level_name k
                  ++ (if starred then [star] else []) ++ [lbrace]) ++ post)
            = Some ((if starred then [star] else []) ++ [lbrace] ++ post))
      as H.
    { apply strip_prefix_Some. simpl. by rewrite <- !app_assoc. }
    congruence.
Qed.

Lemma match_section_open_Some (alts : list level) (s : text) :
  match_section_open alts s = Some () <->
  exists k starred post, k ∈ alts /\ s = section_open_text k starred ++ post.
Proof.
  induction alts as [|k alts IH].
  { split; [done|]. by intros (? & ? & ? & ?%elem_of_nil & _). }
  rewrite match_section_open_cons.
  destruct (match_section_open [k] s) as [[]|] eqn:E.
  - split; [|done]. intros _.
    apply match_section_open_single in E as (starred & post & ->).
    exists k, starred, post. split; [by left|done].
  - rewrite IH. split.
    + intros (k' & starred & post & ? & ?). exists k', starred, post.
      split; [by right|done].
    + intros (k' & starred & post & [Hk|?]%elem_of_cons & ->).
      * subst k'.
        assert (match_section_open [k] (section_open_text k starred ++ post)
                = Some ()) as H by (apply match_section_open_single; eauto).
        congruence.
      * by exists k', starred, post.
Qed.

(** The search behind the terminator succeeds exactly when a section,
    subsection, subsubsection or paragraph command is opened there. *)
Lemma has_section_open_search (s : text) :
  has_section_open s <->
  is_Some (re_search (match_section_open section_after_alternatives) 0 s).
Proof.
  rewrite re_search_is_Some. unfold has_section_open. split.
  - intros (pre & k & starred & post & Hk & ->).
    exists pre, (section_open_text k starred ++ post). split; [done|].
    exists (). apply match_section_open_Some. by exists k, starred, post.
  - intros (pre & post & -> & [[] H]).
    apply match_section_open_Some in H as (k & starred & post' & ? & ->).
    by exists pre, k, starred, post'.
Qed.

Lemma rstrip_nil (s : text) :
  rstrip s = [] -> Forall (fun c => is_space c = true) s.
Proof.
  induction s as [|c s IH]; simpl; [constructor|].
  destruct (rstrip s) as [|c' r]; [|done].
  destruct (is_space c) eqn:E; [|done].
  intros _. constructor; [done|by apply IH].
Qed.

Lemma lstrip_spaces (s : text) :
  exists sp, s = sp ++ lstrip s /\ Forall (fun c => is_space c = true) sp.
Proof.
  induction s as [|c s (sp & Hs & Hsp)]; simpl.
  { by exists []. }
  destruct (is_space c) eqn:E.
  - exists (c :: sp). split; [by rewrite Hs at 1|by constructor].
  - by exists [].
Qed.

(** A text that trims to nothing consists of white space. *)
Lemma strip_nil (s : text) :
  strip s = [] -> Forall (fun c => is_space c = true) s.
Proof.
  unfold strip. intros H%rstrip_nil.
  destruct (lstrip_spaces s) as (sp & Hs & Hsp).
  rewrite Hs. by apply Forall_app.
Qed.

Lemma has_section_open_strip (s : text) : has_section_open s -> strip s <> [].
Proof.
  intros (pre & k & starred & post & _ & ->) H%strip_nil.
  apply Forall_app in H as [_ H]. unfold section_open_text in H.
  by apply Forall_cons in H as [H _].
Qed.

Lemma terminators_from_finditer (t : text) (starts : list nat) :
  re_finditer match_end_document 0 0 t = (fun a => (a, a + 14)) <$> starts ->
  forall p, terminator_at t p <-> p ∈ starts.
Proof.
  intros Hf p.
  pose proof (terminator_match_elem t) as Hel.
  specialize (Hel p (p + 14)). rewrite Hf, list_elem_of_fmap in Hel. split.
  - intros Hp. destruct (proj2 Hel (conj Hp eq_refl)) as (a & [= ->] & ?).
    done.
  - intros Hp. apply Hel. by exists p.
Qed.

Lemma dedup_single_terminator (t : text) (i : nat) :
  (forall p, terminator_at t p <-> p = i) ->
  dedup_end_document t = (t, Some (i, i + 14)).
Proof.
  intros Hocc. unfold dedup_end_document.
  rewrite (finditer_eq t [i]); [done|repeat constructor|].
  intros a. by rewrite Hocc, list_elem_of_singleton.
Qed.

(** Clean-up is the identity on a text with one terminator and no
    section, subsection, subsubsection or paragraph command behind it. *)
Theorem post_process_normalized_unchanged (t : text) (i : nat) :
  (forall p, terminator_at t p <-> p = i) ->
  ~ has_section_open (drop (i + 14) t) ->
  post_process t = t.
Proof.
  intros Hocc Hno. unfold post_process.
  rewrite (dedup_single_terminator t i Hocc). unfold relocate_trailing.
  destruct (re_search _ 0 (drop (i + 14) t)) as [m|] eqn:E; [|done].
  destruct Hno. apply has_section_open_search. by rewrite E.
Qed.

Lemma post_process_normalized_unchanged_witness :
  post_process normalized_text = normalized_text.
Proof.
  apply (post_process_normalized_unchanged normalized_text 21).
  - intros p.
    rewrite (terminators_from_finditer normalized_text [21])
      by (by vm_compute).
    apply list_elem_of_singleton.
  - intros [? H]%has_section_open_search. by vm_compute in H.
Defined.

(** With one terminator and a section, subsection, subsubsection or
    paragraph command behind it, everything behind the terminator is
    trimmed and moved in front of it; the result ends with a blank line,
    the terminator and a newline. *)
Theorem post_process_relocates_trailing (t : text) (i : nat) :
  (forall p, terminator_at t p <-> p = i) ->
  has_section_open (drop (i + 14) t) ->
  post_process t
  = take i t ++ nl :: strip (drop (i + 14) t)
    ++ nl :: nl :: end_document ++ [nl].
Proof.
  intros Hocc Hopen. unfold post_process.
  rewrite (dedup_single_terminator t i Hocc). unfold relocate_trailing.
  pose proof (proj1 (has_section_open_search _) Hopen) as [m ->].
  pose proof (has_section_open_strip _ Hopen) as Hne.
  destruct (strip (drop (i + 14) t)) as [|c r] eqn:Es; [done|].
  assert (slice i (i + 14) t = end_document) as ->; [|done].
  destruct (proj2 (Hocc i) eq_refl) as (pre & post & -> & <-).
  unfold slice. rewrite drop_app_length.
  replace (length pre + 14 - length pre) with (length end_document)
    by (simpl; lia).
  by rewrite take_app_length.
Qed.

Lemma post_process_relocates_trailing_witness :
  post_process stray_section_text
  = take 2 stray_section_text
    ++ nl :: strip (drop (2 + 14) stray_section_text)
    ++ nl :: nl :: end_document ++ [nl].
Proof.
  apply (post_process_relocates_trailing stray_section_text 2).
  - intros p.
    rewrite (terminators_from_finditer stray_section_text [2])
      by (by vm_compute).
    apply list_elem_of_singleton.
  - apply has_section_open_search. eexists. by vm_compute.
Defined.

(** A run without mapping entries and without new content returns a
    normalized template (one terminator, no section command behind it)
    unchanged. *)
Theorem migrate_empty_config_identity (cfg : config)
    (old_content new_content : text) (i : nat) :
  section_mapping cfg = [] ->
  new_sections_content cfg = [] ->
  (forall p, terminator_at new_content p <-> p = i) ->
  ~ has_section_open (drop (i + 14) new_content) ->
  migrate_content cfg old_content new_content = new_content.
Proof.
  intros Hm Hn Hocc Hno.
  unfold migrate_content, spliced_content, replacements_of,
    sections_to_create_of.
  rewrite Hm, Hn.
  change (post_process new_content = new_content). unfold post_process.
  rewrite (dedup_single_terminator new_content i Hocc).
  unfold relocate_trailing.
  destruct (re_search _ 0 (drop (i + 14) new_content)) as [m|] eqn:E;
    [|done].
  destruct Hno. apply has_section_open_search. by rewrite E.
Qed.

Lemma migrate_empty_config_identity_witness :
  migrate_content empty_cfg source_text normalized_text = normalized_text.
Proof.
  apply (migrate_empty_config_identity empty_cfg source_text
           normalized_text 21); [done|done| |].
  - intros p.
    rewrite (terminators_from_finditer normalized_text [21])
      by (by vm_compute).
    apply list_elem_of_singleton.
  - intros [? H]%has_section_open_search. by vm_compute in H.
Defined.

(** ** Hierarchical extraction *)

Section hierarchical.

Implicit Types (sections : gmap text hier_entry) (stack : list stack_item)
  (lines : list text) (line title : text).

Lemma close_sections_sorted r stack :
  StronglySorted item_above stack ->
  StronglySorted item_above (close_sections r stack)
  /\ Forall (fun s => _get_section_level_rank (item_level s) < r)
       (close_sections r stack).
Proof.
  induction 1 as [|top below Hb IH Htop]; simpl; [by split; constructor|].
  destruct (Nat.leb_spec r (_get_section_level_rank (item_level top)))
    as [Hle|Hlt]; [done|].
  split; [by constructor|].
  constructor; [done|].
  eapply Forall_impl; [exact Htop|]. unfold item_above. intros; lia.
Qed.

Lemma push_sorted (o : occurrence) idx stack :
  occ_rank o = _get_section_level_rank (occ_level o) ->
  StronglySorted item_above stack ->
  StronglySorted item_above
    ((occ_title o, occ_level o, idx) :: close_sections (occ_rank o) stack).
Proof.
  intros Hr Hs.
  destruct (close_sections_sorted (occ_rank o) stack Hs) as [Hc Hlt].
  constructor; [done|].
  eapply Forall_impl; [exact Hlt|].
  unfold item_above, item_level. cbn [fst snd]. intros; lia.
Qed.

Lemma sorted_stack_length r stack :
  StronglySorted item_above stack ->
  Forall (fun s => _get_section_level_rank (item_level s) < r) stack ->
  length stack <= r.
Proof.
  intros Hs. revert r.
  induction Hs as [|top below Hb IH Htop]; intros r Hr; simpl; [lia|].
  apply Forall_cons in Hr as [Hr _].
  specialize (IH (_get_section_level_rank (item_level top))).
  unfold item_above in Htop. specialize (IH Htop). lia.
Qed.

Lemma append_line_lookup line sections t title :
  append_line line sections t !! title
  = if decide (t = title)
    then (fun e => {| h_level := h_level e;
                      h_line := h_line e;
                      h_content_lines := h_content_lines e ++ [line];
                      h_full_hierarchy := h_full_hierarchy e;
                      h_parent := h_parent e |}) <$> sections !! title
    else sections !! title.
Proof.
  unfold append_line. destruct (decide (t = title)) as [->|Hne].
  - destruct (sections !! title) as [e|] eqn:E.
    + by rewrite lookup_insert_eq.
    + by rewrite E.
  - destruct (sections !! t); [by rewrite lookup_insert_ne|done].
Qed.

(** Appending a line to the entries of some titles touches the content
    lines of existing entries only. *)
Lemma foldl_append_line_lookup line (titles : list text) sections title :
  match sections !! title with
  | Some e =>
      exists added,
        foldl (append_line line) sections titles !! title
        = Some {| h_level := h_level e;
                  h_line := h_line e;
                  h_content_lines := h_content_lines e ++ added;
                  h_full_hierarchy := h_full_hierarchy e;
                  h_parent := h_parent e |}
        /\ Forall (eq line) added
  | None => foldl (append_line line) sections titles !! title = None
  end.
Proof.
  revert sections. induction titles as [|t titles IH]; intros sections; simpl.
  - destruct (sections !! title) as [e|] eqn:E; [|done].
    exists []. rewrite app_nil_r. split; [by destruct e|constructor].
  - specialize (IH (append_line line sections t)).
    rewrite append_line_lookup in IH.
    destruct (decide (t = title)) as [->|Hne];
      destruct (sections !! title) as [e|] eqn:E; simpl in IH; try done.
    destruct IH as (added & -> & Hadd).
    exists (line :: added). rewrite <- app_assoc. split; [done|].
    by constructor.
Qed.

Lemma hierarchical_loop_cons idx line lines sections stack :
  hierarchical_loop idx (line :: lines) sections stack
  = match first_marker sections_pattern idx line with
    | Some o =>
        let stack' :=
          (occ_title o, occ_level o, idx)
          :: close_sections (occ_rank o) stack in
        hierarchical_loop (S idx) lines
          match sections !! occ_title o with
          | Some _ => sections
          | None =>
              <[occ_title o :=
                  {| h_level := occ_level o;
                     h_line := occ_line o;
                     h_content_lines := [];
                     h_full_hierarchy := stack_titles stack';
                     h_parent := stack_parent stack' |}]> sections
          end stack'
    | None =>
        hierarchical_loop (S idx) lines
          (foldl (append_line line) sections (stack_titles stack)) stack
    end.
Proof. done. Qed.

Lemma new_entry_path_ok (o : occurrence) idx stack :
  occ_rank o = _get_section_level_rank (occ_level o) ->
  StronglySorted item_above stack ->
  let stack' :=
    (occ_title o, occ_level o, idx) :: close_sections (occ_rank o) stack in
  path_ok (occ_title o)
    {| h_level := occ_level o;
       h_line := occ_line o;
       h_content_lines := [];
       h_full_hierarchy := stack_titles stack';
       h_parent := stack_parent stack' |}.
Proof.
  intros Hr Hs stack'.
  destruct (close_sections_sorted (occ_rank o) stack Hs) as [Hc Hlt].
  exists (stack_titles (close_sections (occ_rank o) stack)). simpl.
  split_and!.
  - unfold stack_titles, stack'. by rewrite fmap_cons, reverse_cons.
  - unfold stack_titles, stack'.
    destruct (close_sections (occ_rank o) stack) as [|below rest]; [done|].
    simpl. by rewrite reverse_cons, last_snoc.
  - unfold stack_titles, stack'.
    rewrite length_reverse, length_fmap. simpl.
    pose proof (sorted_stack_length _ _ Hc Hlt).
    pose proof (rank_le_4 (occ_level o)). lia.
Qed.

Lemma hierarchical_loop_invariant idx lines sections stack :
  StronglySorted item_above stack ->
  map_Forall path_ok sections ->
  map_Forall path_ok (hierarchical_loop idx lines sections stack).1
  /\ StronglySorted item_above (hierarchical_loop idx lines sections stack).2.
Proof.
  revert idx sections stack.
  induction lines as [|line lines IH]; intros idx sections stack Hs Hok;
    [done|].
  rewrite hierarchical_loop_cons.
  destruct (first_marker sections_pattern idx line) as [o|] eqn:E.
  - pose proof (first_marker_Some _ _ _ _ sections_pattern_sorted E)
      as (_ & _ & _ & Hr & _ & _).
    apply IH; [by apply push_sorted|].
    destruct (sections !! occ_title o) eqn:Eo; [done|].
    apply map_Forall_insert_2; [|done].
    by apply new_entry_path_ok.
  - apply IH; [done|].
    intros title e' He'.
    pose proof (foldl_append_line_lookup line (stack_titles stack)
                  sections title) as Hl.
    destruct (sections !! title) as [e|] eqn:Et; [|congruence].
    destruct Hl as (added & Hl & _). rewrite Hl in He'.
    injection He' as <-. destruct (Hok _ _ Et) as (path & ? & ? & ?).
    by exists path.
Qed.

(** Fields written when an entry is created are kept to the end of the
    loop, and lines are only ever added behind the content lines. *)
Lemma hierarchical_loop_keeps idx lines sections stack title e :
  sections !! title = Some e ->
  exists e',
    (hierarchical_loop idx lines sections stack).1 !! title = Some e'
    /\ same_meta e e'
    /\ h_content_lines e `prefix_of` h_content_lines e'.
Proof.
  revert idx sections stack e.
  induction lines as [|line lines IH]; intros idx sections stack e He.
  { exists e. by split_and!. }
  rewrite hierarchical_loop_cons.
  destruct (first_marker sections_pattern idx line) as [o|] eqn:E.
  - apply IH. destruct (sections !! occ_title o) eqn:Eo; [done|].
    rewrite lookup_insert_ne; [done|]. intros <-. congruence.
  - pose proof (foldl_append_line_lookup line (stack_titles stack)
                  sections title) as Hl.
    rewrite He in Hl. destruct Hl as (added & Hl & _).
    destruct (IH (S idx) _ stack _ Hl) as (e' & He' & (? & ? & ? & ?) & Hp).
    exists e'. split_and!; [done|by split_and!|].
    simpl in Hp. etrans; [|exact Hp]. by apply prefix_app_r.
Qed.

Lemma hierarchical_loop_is_Some idx lines sections stack title :
  is_Some ((hierarchical_loop idx lines sections stack).1 !! title) <->
  is_Some (sections !! title)
  \/ exists o, o ∈ scan_sections idx lines /\ occ_title o = title.
Proof.
  revert idx sections stack.
  induction lines as [|line lines IH]; intros idx sections stack.
  { simpl. split; [by left|]. by intros [?|(o & ?%elem_of_nil & _)]. }
  rewrite hierarchical_loop_cons. cbn [scan_sections].
  destruct (first_marker sections_pattern idx line) as [o|] eqn:E.
  - rewrite IH.
    assert (is_Some (match sections !! occ_title o with
                     | Some _ => sections
                     | None => <[occ_title o :=
                          {| h_level := occ_level o;
                             h_line := occ_line o;
                             h_content_lines := [];
                             h_full_hierarchy :=
                               stack_titles ((occ_title o, occ_level o, idx)
                                 :: close_sections (occ_rank o) stack);
                             h_parent :=
                               stack_parent ((occ_title o, occ_level o, idx)
                                 :: close_sections (occ_rank o) stack) |}]>
                         sections
                     end !! title)
            <-> is_Some (sections !! title) \/ occ_title o = title) as ->.
    { destruct (sections !! occ_title o) as [e0|] eqn:Eo.
      - split; [by left|]. intros [?|<-]; [done|by rewrite Eo].
      - destruct (decide (occ_title o = title)) as [<-|Hne].
        + rewrite lookup_insert_eq. split; [by right|done].
        + rewrite lookup_insert_ne by done. split; [by left|].
          by intros [?|?]. }
    split.
    + intros [[?|?]|(o' & ? & ?)]; [by left| |].
      * right. exists o. split; [by left|done].
      * right. exists o'. split; [by right|done].
    + intros [?|(o' & [->|?]%elem_of_cons & ?)].
      * left. by left.
      * left. by right.
      * right. by exists o'.
  - rewrite IH.
    pose proof (foldl_append_line_lookup line (stack_titles stack)
                  sections title) as Hl.
    destruct (sections !! title) as [e|] eqn:Et.
    + destruct Hl as (added & -> & _). split; intros _; by left.
    + rewrite Hl. done.
Qed.

Lemma hierarchical_loop_first idx lines sections stack
    (pre : list occurrence) (o : occurrence) (later : list occurrence) :
  scan_sections idx lines = pre ++ o :: later ->
  sections !! occ_title o = None ->
  (forall o', o' ∈ pre -> occ_title o' <> occ_title o) ->
  exists e,
    (hierarchical_loop idx lines sections stack).1 !! occ_title o = Some e
    /\ h_level e = occ_level o /\ h_line e = occ_line o.
Proof.
  revert idx sections stack pre.
  induction lines as [|line lines IH]; intros idx sections stack pre;
    cbn [scan_sections].
  { by destruct pre. }
  rewrite hierarchical_loop_cons.
  destruct (first_marker sections_pattern idx line) as [o0|] eqn:E.
  - destruct pre as [|o1 pre]; intros [= -> Hscan] Hnone Hpre.
    + rewrite Hnone.
      edestruct (hierarchical_loop_keeps (S idx) lines) as (e' & He' & Hm & _);
        [apply lookup_insert_eq|].
      exists e'. destruct Hm as (? & ? & _). by split_and!.
    + apply (IH _ _ _ pre); [done| |].
      * assert (occ_title o1 <> occ_title o) as Hne
          by (apply Hpre; by left).
        destruct (sections !! occ_title o1); [done|].
        by rewrite lookup_insert_ne.
      * intros o' Ho'. apply Hpre. by right.
  - intros Hscan Hnone Hpre. apply (IH _ _ _ pre); [done| |done].
    pose proof (foldl_append_line_lookup line (stack_titles stack)
                  sections (occ_title o)) as Hl.
    by rewrite Hnone in Hl.
Qed.

Lemma hierarchical_loop_plain (all_lines : list text)
    idx lines sections stack :
  lines ⊆ all_lines ->
  map_Forall (fun _ e => Forall (plain_line_of all_lines) (h_content_lines e))
    sections ->
  map_Forall (fun _ e => Forall (plain_line_of all_lines) (h_content_lines e))
    (hierarchical_loop idx lines sections stack).1.
Proof.
  revert idx sections stack.
  induction lines as [|line lines IH]; intros idx sections stack Hsub Hok;
    [done|].
  rewrite hierarchical_loop_cons.
  assert (lines ⊆ all_lines) as Hsub' by set_solver.
  destruct (first_marker sections_pattern idx line) as [o|] eqn:E.
  - apply IH; [done|].
    destruct (sections !! occ_title o); [done|].
    apply map_Forall_insert_2; [constructor|done].
  - apply IH; [done|].
    intros title e' He'.
    pose proof (foldl_append_line_lookup line (stack_titles stack)
                  sections title) as Hl.
    destruct (sections !! title) as [e|] eqn:Et; [|congruence].
    destruct Hl as (added & Hl & Hadd). rewrite Hl in He'.
    injection He' as <-. simpl. apply Forall_app. split; [by eapply Hok|].
    eapply Forall_impl; [exact Hadd|]. intros l <-. split; [set_solver|].
    intros k [? Hm]%has_marker_search.
    rewrite (proj1 (first_marker_None _ _ _) E) in Hm;
      [done|apply elem_of_sections_pattern].
Qed.

End hierarchical.

(** In the result of [extract_sections_hierarchical] the path of every
    entry ends with the entry's own title, its parent is the title just
    before it on the path (none for a one-element path), and no path is
    longer than five titles. *)
Theorem hierarchical_paths (doc title : text) (hs : hier_section) :
  extract_sections_hierarchical doc !! title = Some hs ->
  exists path,
    hs_full_hierarchy hs = path ++ [title]
    /\ hs_parent hs = last path
    /\ length (hs_full_hierarchy hs) <= 5.
Proof.
  unfold extract_sections_hierarchical. rewrite lookup_fmap.
  intros (e & He & ->)%fmap_Some.
  destruct (hierarchical_loop_invariant 0 (split_nl doc) ∅ [])
    as [Hok _]; [constructor|apply map_Forall_empty|].
  exact (Hok _ _ He).
Qed.

Lemma hierarchical_paths_witness :
  extract_sections_hierarchical nested_text !! lit "U"
  = Some {| hs_level := subsection;
            hs_line := lit "\subsection{U}";
            hs_full_hierarchy := [lit "C"; lit "S"; lit "U"];
            hs_parent := Some (lit "S");
            hs_content := lit "u-line" |}
  /\ exists path,
       [lit "C"; lit "S"; lit "U"] = path ++ [lit "U"]
       /\ Some (lit "S") = last path
       /\ length [lit "C"; lit "S"; lit "U"] <= 5.
Proof.
  assert (extract_sections_hierarchical nested_text !! lit "U"
          = Some {| hs_level := subsection;
                    hs_line := lit "\subsection{U}";
                    hs_full_hierarchy := [lit "C"; lit "S"; lit "U"];
                    hs_parent := Some (lit "S");
                    hs_content := lit "u-line" |}) as H by (by vm_compute).
  split; [exact H|].
  exact (hierarchical_paths nested_text (lit "U") _ H).
Defined.

(** [extract_sections_hierarchical] has an entry for exactly the titles of
    the markers of the document, like the two other extraction functions. *)
Theorem hierarchical_titles (doc title : text) :
  is_Some (extract_sections_hierarchical doc !! title) <->
  is_Some (extract_sections doc !! title).
Proof.
  unfold extract_sections, extract_sections_hierarchical. cbv zeta.
  rewrite second_pass_is_Some.
  rewrite lookup_fmap, fmap_is_Some.
  rewrite (hierarchical_loop_is_Some 0 (split_nl doc) ∅ [] title).
  rewrite !lookup_empty.
  split; (intros [[? [=]]|?]; by right).
Qed.

(** Where a title occurs several times, [extract_sections_hierarchical]
    keeps the kind and the line of its first occurrence (the two other
    extraction functions keep those of the last). *)
Theorem hierarchical_first_occurrence_wins (doc : text)
    (pre : list occurrence) (o : occurrence) (later : list occurrence) :
  scan_sections 0 (split_nl doc) = pre ++ o :: later ->
  (forall o', o' ∈ pre -> occ_title o' <> occ_title o) ->
  exists hs,
    extract_sections_hierarchical doc !! occ_title o = Some hs
    /\ hs_level hs = occ_level o /\ hs_line hs = occ_line o.
Proof.
  intros Hscan Hpre.
  destruct (hierarchical_loop_first 0 (split_nl doc) ∅ [] pre o later)
    as (e & He & Hl & Hline); [done|apply lookup_empty|done|].
  exists (finish_entry e). unfold extract_sections_hierarchical.
  by rewrite lookup_fmap, He.
Qed.

Lemma hierarchical_first_occurrence_wins_witness :
  (exists hs,
     extract_sections_hierarchical c8_text !! lit "A" = Some hs
     /\ hs_level hs = section /\ hs_line hs = lit "\section{A}")
  /\ (info_level <$> extract_sections c8_text !! lit "A") = Some subsection.
Proof.
  split; [|by vm_compute].
  destruct (hierarchical_first_occurrence_wins c8_text []
              {| occ_title := lit "A"; occ_level := section; occ_rank := 1;
                 occ_line_idx := 0; occ_line := lit "\section{A}" |}
              (drop 1 (scan_sections 0 (split_nl c8_text))))
    as (hs & H1 & H2 & H3).
  - by vm_compute.
  - by intros o' ?%elem_of_nil.
  - exists hs. split_and!; [exact H1|exact H2|exact H3].
Defined.

(** The content that [extract_sections_hierarchical] stores is joined
    from lines of the document that carry no marker: headings of
    sub-sections are not part of it. *)
Theorem hierarchical_content_has_no_marker_line (doc title : text)
    (hs : hier_section) :
  extract_sections_hierarchical doc !! title = Some hs ->
  exists ls,
    hs_content hs = join_nl ls
    /\ forall l, l ∈ ls ->
         l ∈ split_nl doc /\ forall k, ~ has_marker k l.
Proof.
  unfold extract_sections_hierarchical. rewrite lookup_fmap.
  intros (e & He & ->)%fmap_Some.
  exists (h_content_lines e). split; [done|].
  pose proof (hierarchical_loop_plain (split_nl doc) 0 (split_nl doc) ∅ []
                ltac:(done) ltac:(apply map_Forall_empty) _ _ He) as H.
  rewrite Forall_forall in H. exact H.
Qed.

Lemma hierarchical_content_has_no_marker_line_witness :
  extract_sections_hierarchical nested_text !! lit "S"
  = Some {| hs_level := section;
            hs_line := lit "\section{S}";
            hs_full_hierarchy := [lit "C"; lit "S"];
            hs_parent := Some (lit "C");
            hs_content :=
              doc_of_lines ["s-line"; "u-line"; "again"; "again"] |}
  /\ exists ls,
       doc_of_lines ["s-line"; "u-line"; "again"; "again"] = join_nl ls
       /\ forall l, l ∈ ls ->
            l ∈ split_nl nested_text /\ forall k, ~ has_marker k l.
Proof.
  assert (extract_sections_hierarchical nested_text !! lit "S"
          = Some {| hs_level := section;
                    hs_line := lit "\section{S}";
                    hs_full_hierarchy := [lit "C"; lit "S"];
                    hs_parent := Some (lit "C");
                    hs_content :=
                      doc_of_lines ["s-line"; "u-line"; "again"; "again"] |})
    as H by (by vm_compute).
  split; [exact H|].
  exact (hierarchical_content_has_no_marker_line nested_text (lit "S") _ H).
Defined.

(** *** Content of the hierarchical extraction *)

Section hierarchical_content.

Implicit Types (sections : gmap text hier_entry) (stack : list stack_item)
  (lines : list text) (line title t : text).

Lemma close_sections_suffix r stack : close_sections r stack `suffix_of` stack.
Proof.
  induction stack as [|top below IH]; simpl; [done|].
  destruct (r <=? _); [by apply suffix_cons_r|done].
Qed.

Lemma close_sections_titles r stack t :
  t ∉ item_title <$> stack -> t ∉ item_title <$> close_sections r stack.
Proof.
  intros Hno Hin. apply Hno.
  destruct (close_sections_suffix r stack) as [k ->].
  rewrite fmap_app. apply elem_of_app. by right.
Qed.

Lemma close_sections_app_keep r (above : list stack_item) x below :
  _get_section_level_rank (item_level x) < r ->
  close_sections r (above ++ x :: below)
  = close_sections r above ++ x :: below.
Proof.
  intros Hx. induction above as [|top above IH]; simpl.
  - destruct (Nat.leb_spec r (_get_section_level_rank (item_level x)));
      [lia|done].
  - by destruct (r <=? _).
Qed.

Lemma close_sections_app_drop r (above rest : list stack_item) :
  Forall (fun s => r <= _get_section_level_rank (item_level s)) above ->
  close_sections r (above ++ rest) = close_sections r rest.
Proof.
  induction 1 as [|top above Htop _ IH]; simpl; [done|].
  by destruct (Nat.leb_spec r (_get_section_level_rank (item_level top)));
    [|lia].
Qed.

Lemma foldl_append_line_other line (titles : list text) sections t :
  t ∉ titles ->
  foldl (append_line line) sections titles !! t = sections !! t.
Proof.
  revert sections. induction titles as [|t0 titles IH]; intros sections Hno;
    simpl; [done|].
  apply not_elem_of_cons in Hno as [Hne Hno].
  rewrite IH by done. rewrite append_line_lookup.
  by destruct (decide (t0 = t)) as [->|].
Qed.

Lemma foldl_append_line_once line (ts1 ts2 : list text) sections t e :
  t ∉ ts1 -> t ∉ ts2 -> sections !! t = Some e ->
  foldl (append_line line) sections (ts1 ++ t :: ts2) !! t
  = Some (with_content_lines e (h_content_lines e ++ [line])).
Proof.
  intros H1 H2 He. rewrite foldl_app. simpl.
  rewrite foldl_append_line_other by done.
  rewrite append_line_lookup. rewrite decide_True by done.
  by rewrite foldl_append_line_other, He.
Qed.

Lemma with_content_lines_same e : with_content_lines e (h_content_lines e) = e.
Proof. by destruct e. Qed.

(** An entry that is not on the stack and whose title does not come
    again is final. *)
Lemma hierarchical_loop_closed idx lines sections stack t e :
  t ∉ item_title <$> stack ->
  sections !! t = Some e ->
  (forall o, o ∈ scan_sections idx lines -> occ_title o <> t) ->
  (hierarchical_loop idx lines sections stack).1 !! t = Some e.
Proof.
  revert idx sections stack.
  induction lines as [|line lines IH]; intros idx sections stack Hst He Hno;
    [done|].
  rewrite hierarchical_loop_cons. cbn [scan_sections] in Hno.
  destruct (first_marker sections_pattern idx line) as [o|] eqn:E.
  - assert (occ_title o <> t) as Hne by (apply Hno; by left).
    apply IH.
    + rewrite fmap_cons. apply not_elem_of_cons. split; [done|].
      by apply close_sections_titles.
    + destruct (sections !! occ_title o); [done|].
      by rewrite lookup_insert_ne.
    + intros o' Ho'. apply Hno. by right.
  - apply IH; [done| |done].
    rewrite foldl_append_line_other; [done|].
    unfold stack_titles. by rewrite elem_of_reverse.
Qed.

(** An entry that is on the stack receives the marker-free lines up to
    the first marker of its own rank or above. *)
Lemma hierarchical_loop_open idx lines sections
    (above below : list stack_item) t lv i e :
  StronglySorted item_above (above ++ (t, lv, i) :: below) ->
  t ∉ item_title <$> above ->
  t ∉ item_title <$> below ->
  sections !! t = Some e ->
  (forall o, o ∈ scan_sections idx lines -> occ_title o <> t) ->
  (hierarchical_loop idx lines sections (above ++ (t, lv, i) :: below)).1 !! t
  = Some (with_content_lines e
            (h_content_lines e
             ++ open_lines (_get_section_level_rank lv) idx lines)).
Proof.
  revert idx sections above e.
  induction lines as [|line lines IH];
    intros idx sections above e Hs Ha Hb He Hno.
  { simpl. by rewrite app_nil_r, with_content_lines_same. }
  rewrite hierarchical_loop_cons. cbn [scan_sections open_lines] in *.
  destruct (first_marker sections_pattern idx line) as [o|] eqn:E.
  - assert (occ_title o <> t) as Hne by (apply Hno; by left).
    pose proof (first_marker_Some _ _ _ _ sections_pattern_sorted E)
      as (_ & _ & _ & Hr & _ & _).
    assert (match sections !! occ_title o with
            | Some _ => sections
            | None =>
                <[occ_title o :=
                    {| h_level := occ_level o;
                       h_line := occ_line o;
                       h_content_lines := [];
                       h_full_hierarchy :=
                         stack_titles ((occ_title o, occ_level o, idx)
                           :: close_sections (occ_rank o)
                                (above ++ (t, lv, i) :: below));
                       h_parent :=
                         stack_parent ((occ_title o, occ_level o, idx)
                           :: close_sections (occ_rank o)
                                (above ++ (t, lv, i) :: below)) |}]>
                  sections
            end !! t = Some e) as He'.
    { destruct (sections !! occ_title o); [done|].
      by rewrite lookup_insert_ne. }
    destruct (Nat.leb_spec (occ_rank o) (_get_section_level_rank lv))
      as [Hle|Hgt].
    + rewrite app_nil_r, with_content_lines_same.
      apply hierarchical_loop_closed; [|done|].
      * rewrite fmap_cons. apply not_elem_of_cons. split; [done|].
        rewrite close_sections_app_drop.
        -- simpl. unfold item_level at 1. cbn [fst snd].
           destruct (Nat.leb_spec (occ_rank o) (_get_section_level_rank lv));
             [|lia].
           by apply close_sections_titles.
        -- apply StronglySorted_app in Hs as (Hab & _ & _).
           apply Forall_forall. intros s Hs'.
           specialize (Hab s (t, lv, i) Hs' ltac:(by left)).
           unfold item_above, item_level in Hab. cbn [fst snd] in Hab.
           unfold item_level. lia.
      * intros o' Ho'. apply Hno. by right.
    + rewrite close_sections_app_keep
        by (unfold item_level; cbn [fst snd]; lia).
      rewrite close_sections_app_keep in He'
        by (unfold item_level; cbn [fst snd]; lia).
      apply (IH (S idx) _
               ((occ_title o, occ_level o, idx)
                :: close_sections (occ_rank o) above) e).
      * rewrite <- app_comm_cons.
        rewrite <- close_sections_app_keep
          by (unfold item_level; cbn [fst snd]; lia).
        by apply push_sorted.
      * rewrite fmap_cons. apply not_elem_of_cons. split; [done|].
        by apply close_sections_titles.
      * done.
      * done.
      * intros o' Ho'. apply Hno. by right.
  - assert (foldl (append_line line) sections
              (stack_titles (above ++ (t, lv, i) :: below)) !! t
            = Some (with_content_lines e (h_content_lines e ++ [line])))
      as He'.
    { unfold stack_titles. rewrite fmap_app, fmap_cons, reverse_app,
        reverse_cons, <- app_assoc. simpl.
      apply foldl_append_line_once; [|..|done];
        by rewrite elem_of_reverse. }
    rewrite (IH (S idx) _ above _ Hs Ha Hb He' Hno).
    simpl. by rewrite <- app_assoc.
Qed.

Lemma hierarchical_loop_new idx lines sections stack
    (pre : list occurrence) (o : occurrence) (later : list occurrence) :
  scan_sections idx lines = pre ++ o :: later ->
  NoDup (occ_title <$> pre ++ o :: later) ->
  sections !! occ_title o = None ->
  Forall (fun s => is_Some (sections !! item_title s)) stack ->
  StronglySorted item_above stack ->
  exists e,
    (hierarchical_loop idx lines sections stack).1 !! occ_title o = Some e
    /\ h_content_lines e
       = open_lines (occ_rank o) (S (occ_line_idx o))
           (drop (S (occ_line_idx o - idx)) lines).
Proof.
  revert idx sections stack pre.
  induction lines as [|line lines IH]; intros idx sections stack pre;
    cbn [scan_sections].
  { by destruct pre. }
  rewrite hierarchical_loop_cons.
  destruct (first_marker sections_pattern idx line) as [o0|] eqn:E.
  - pose proof (first_marker_Some _ _ _ _ sections_pattern_sorted E)
      as (_ & _ & _ & Hr & Hidx & _).
    destruct pre as [|o1 pre]; intros [= -> Hscan] Hnd Hnone Hdom Hs.
    + rewrite Hnone. simpl in Hidx. rewrite Hidx, Nat.sub_diag. simpl.
      eexists. split.
      * apply (hierarchical_loop_open (S idx) lines _ [] _ (occ_title o)
                 (occ_level o) idx).
        -- by apply push_sorted.
        -- by apply not_elem_of_nil.
        -- apply close_sections_titles. intros (s & Ht & Hin)%list_elem_of_fmap.
           rewrite Forall_forall in Hdom. specialize (Hdom _ Hin).
           rewrite <- Ht, Hnone in Hdom. by destruct Hdom.
        -- apply lookup_insert_eq.
        -- intros o' Ho'. rewrite Hscan in Ho'.
           simpl in Hnd. apply NoDup_cons in Hnd as [Hnd _].
           intros Heq. apply Hnd. rewrite <- Heq.
           by apply list_elem_of_fmap_2.
      * simpl. by rewrite Hr.
    + simpl in Hnd. apply NoDup_cons in Hnd as [Hn1 Hnd].
      assert (occ_title o1 <> occ_title o) as Hne.
      { intros Heq. apply Hn1. rewrite Heq, fmap_app, fmap_cons.
        apply elem_of_app. right. by left. }
      assert (S idx <= occ_line_idx o) as Hge.
      { pose proof (scan_sections_bounds lines (S idx)) as Hb.
        rewrite Hscan, Forall_forall in Hb.
        apply (Hb o). apply elem_of_app. right. by left. }
      cbv zeta.
      replace (drop (S (occ_line_idx o - idx)) (line :: lines))
        with (drop (S (occ_line_idx o - S idx)) lines)
        by (replace (occ_line_idx o - idx)
              with (S (occ_line_idx o - S idx)) by lia; done).
      apply (IH (S idx) _ _ pre Hscan Hnd).
      * destruct (sections !! occ_title o1); [done|].
        by rewrite lookup_insert_ne.
      * constructor.
        -- unfold item_title. cbn [fst].
           destruct (sections !! occ_title o1) as [e1|] eqn:E1;
             [by rewrite E1|by rewrite lookup_insert_eq].
        -- destruct (close_sections_suffix (occ_rank o1) stack) as [k Hk].
           rewrite Hk in Hdom. apply Forall_app in Hdom as [_ Hdom].
           eapply Forall_impl; [exact Hdom|]. intros s Hs'.
           destruct (sections !! occ_title o1); [done|].
           destruct (decide (occ_title o1 = item_title s)) as [<-|?].
           ++ by rewrite lookup_insert_eq.
           ++ by rewrite lookup_insert_ne.
      * by apply push_sorted.
  - intros Hscan Hnd Hnone Hdom Hs.
    assert (S idx <= occ_line_idx o) as Hge.
    { pose proof (scan_sections_bounds lines (S idx)) as Hb.
      rewrite Hscan, Forall_forall in Hb.
      apply (Hb o). apply elem_of_app. right. by left. }
    replace (drop (S (occ_line_idx o - idx)) (line :: lines))
      with (drop (S (occ_line_idx o - S idx)) lines)
      by (replace (occ_line_idx o - idx)
            with (S (occ_line_idx o - S idx)) by lia; done).
    apply (IH (S idx) _ _ pre Hscan Hnd).
    + pose proof (foldl_append_line_lookup line (stack_titles stack)
                    sections (occ_title o)) as Hl.
      by rewrite Hnone in Hl.
    + eapply Forall_impl; [exact Hdom|]. intros s [e0 He0].
      pose proof (foldl_append_line_lookup line (stack_titles stack)
                    sections (item_title s)) as Hl.
      rewrite He0 in Hl. destruct Hl as (added & -> & _). done.
    + done.
Qed.

Lemma plainb_first_marker idx line :
  first_marker sections_pattern idx line = None <-> plainb line = true.
Proof.
  unfold plainb. split.
  - intros H.
    assert (first_marker sections_pattern 0 line = None) as ->; [|done].
    apply first_marker_None. by apply (first_marker_None _ idx).
  - destruct (first_marker sections_pattern 0 line) eqn:E; [done|].
    intros _. apply first_marker_None. by apply (first_marker_None _ 0).
Qed.

Lemma plainb_true line : plainb line = true <-> forall k, ~ has_marker k line.
Proof.
  rewrite <- (plainb_first_marker 0), first_marker_None. split.
  - intros H k [? Hm]%has_marker_search.
    rewrite H in Hm; [done|apply elem_of_sections_pattern].
  - intros H k _. destruct (search_marker k line) eqn:E; [|done].
    destruct (H k). apply has_marker_search. by rewrite E.
Qed.

Lemma full_end_lower r idx lines :
  idx <= full_end r (scan_sections idx lines) (idx + length lines).
Proof.
  destruct (full_end_cases r (scan_sections idx lines) (idx + length lines))
    as [->|(o & Ho & ->)]; [lia|].
  pose proof (scan_sections_bounds lines idx) as Hb.
  rewrite Forall_forall in Hb. specialize (Hb _ Ho). lia.
Qed.

(** The lines an open entry receives are the marker-free lines up to its
    full-hierarchy boundary. *)
Lemma open_lines_slice r idx lines :
  open_lines r idx lines
  = filter (fun l => plainb l = true)
      (take (full_end r (scan_sections idx lines) (idx + length lines) - idx)
         lines).
Proof.
  revert idx. induction lines as [|l lines IH]; intros idx;
    cbn [open_lines scan_sections length].
  { by rewrite take_nil. }
  pose proof (full_end_lower r (S idx) lines) as Hlow.
  replace (idx + S (length lines)) with (S idx + length lines) by lia.
  destruct (first_marker sections_pattern idx l) as [o|] eqn:E.
  - pose proof (first_marker_idx _ _ _ _ E) as Hidx.
    cbn [full_end]. destruct (occ_rank o <=? r).
    + rewrite Hidx, Nat.sub_diag. done.
    + replace (full_end r (scan_sections (S idx) lines) (S idx + length lines)
               - idx)
        with (S (full_end r (scan_sections (S idx) lines)
                   (S idx + length lines) - S idx)) by lia.
      cbn [take]. rewrite filter_cons_False.
      * apply IH.
      * intros Hp. apply plainb_first_marker with (idx := idx) in Hp.
        congruence.
  - replace (full_end r (scan_sections (S idx) lines) (S idx + length lines)
             - idx)
      with (S (full_end r (scan_sections (S idx) lines)
                 (S idx + length lines) - S idx)) by lia.
    cbn [take]. rewrite filter_cons_True by (by eapply plainb_first_marker).
    f_equal. apply IH.
Qed.

Lemma scan_sections_later idx lines
    (pre : list occurrence) (o : occurrence) (later : list occurrence) :
  scan_sections idx lines = pre ++ o :: later ->
  idx <= occ_line_idx o < idx + length lines
  /\ later = scan_sections (S (occ_line_idx o))
               (drop (S (occ_line_idx o - idx)) lines).
Proof.
  revert idx pre. induction lines as [|l lines IH]; intros idx pre;
    cbn [scan_sections].
  { by destruct pre. }
  assert (forall pre', scan_sections (S idx) lines = pre' ++ o :: later ->
            idx <= occ_line_idx o < idx + length (l :: lines)
            /\ later = scan_sections (S (occ_line_idx o))
                         (drop (S (occ_line_idx o - idx)) (l :: lines)))
    as Htl.
  { intros pre' (Hb & Hl)%IH. simpl. split; [lia|].
    replace (occ_line_idx o - idx) with (S (occ_line_idx o - S idx)) by lia.
    done. }
  destruct (first_marker sections_pattern idx l) as [o0|] eqn:E;
    [|apply Htl].
  destruct pre as [|o1 pre]; intros [= -> Hscan]; [|by eapply Htl].
  apply first_marker_idx in E. rewrite E, Nat.sub_diag. simpl.
  split; [lia|done].
Qed.

End hierarchical_content.

(** In a document whose titles are all different,
    [extract_sections_hierarchical] stores for a title the lines of its
    full-hierarchy range (from the line after its marker to the next
    marker of its own rank or above, as in [extract_sections]) that carry
    no marker, joined by newlines and not trimmed. *)
Theorem hierarchical_content_distinct_titles (doc : text)
    (pre : list occurrence) (o : occurrence) (later : list occurrence) :
  scan_sections 0 (split_nl doc) = pre ++ o :: later ->
  NoDup (occ_title <$> scan_sections 0 (split_nl doc)) ->
  let lines := split_nl doc in
  exists hs,
    extract_sections_hierarchical doc !! occ_title o = Some hs
    /\ hs_content hs
       = join_nl (filter (fun l => plainb l = true)
                    (slice (S (occ_line_idx o))
                       (full_end (occ_rank o) later (length lines)) lines)).
Proof.
  intros Hscan Hnd lines. rewrite Hscan in Hnd.
  destruct (hierarchical_loop_new 0 lines ∅ [] pre o later Hscan Hnd)
    as (e & He & Hc);
    [apply lookup_empty|constructor|constructor|].
  exists (finish_entry e). split.
  { unfold extract_sections_hierarchical. fold lines.
    by rewrite lookup_fmap, He. }
  simpl. rewrite Hc, open_lines_slice. do 2 f_equal. unfold slice.
  destruct (scan_sections_later 0 lines pre o later Hscan) as [Hb Hl].
  rewrite Nat.sub_0_r in *. rewrite <- Hl. do 2 f_equal.
  rewrite length_drop. f_equal. simpl in Hb. lia.
Qed.

Lemma hierarchical_content_distinct_titles_witness :
  exists hs,
    extract_sections_hierarchical distinct_titles_text !! lit "S" = Some hs
    /\ hs_content hs = doc_of_lines ["s-line"; "u-line"].
Proof.
  destruct (hierarchical_content_distinct_titles distinct_titles_text
              (take 1 (scan_sections 0 (split_nl distinct_titles_text)))
              {| occ_title := lit "S"; occ_level := section; occ_rank := 1;
                 occ_line_idx := 2; occ_line := lit "\section{S}" |}
              (drop 2 (scan_sections 0 (split_nl distinct_titles_text))))
    as (hs & Hhs & Hc).
  - by vm_compute.
  - apply (bool_decide_unpack _). by vm_compute.
  - exists hs. split; [exact Hhs|]. rewrite Hc. by vm_compute.
Defined.

(** ** Entries and their markers *)

(** Every entry returned by [extract_sections] or
    [extract_sections_content_only] carries the kind, the trimmed line and
    the rank of a marker of the document with the entry's title. *)
Theorem extracted_entry_from_occurrence (doc title : text)
    (e : section_info) :
  extract_sections doc !! title = Some e
  \/ extract_sections_content_only doc !! title = Some e ->
  exists o,
    o ∈ scan_sections 0 (split_nl doc)
    /\ occ_title o = title
    /\ info_level e = occ_level o
    /\ info_line e = occ_line o
    /\ info_rank e = _get_section_level_rank (occ_level o).
Proof.
  assert (forall find_end,
            second_pass find_end (split_nl doc)
              (scan_sections 0 (split_nl doc)) ∅ !! title = Some e ->
            exists o,
              o ∈ scan_sections 0 (split_nl doc)
              /\ occ_title o = title
              /\ info_level e = occ_level o
              /\ info_line e = occ_line o
              /\ info_rank e = _get_section_level_rank (occ_level o)) as H.
  { intros find_end He.
    apply second_pass_lookup_Some in He
      as [He|(pre & o & later & Hocc & Ht & ->)].
    { by rewrite lookup_empty in He. }
    assert (o ∈ scan_sections 0 (split_nl doc)) as Ho.
    { rewrite Hocc. apply elem_of_app. right. by left. }
    exists o. split_and!; [done..|]. simpl.
    by destruct (scan_sections_ranks _ _ _ Ho) as [? _]. }
  intros [He|He]; by eapply H.
Qed.

Lemma extracted_entry_from_occurrence_witness :
  exists o,
    o ∈ scan_sections 0 (split_nl scenario_e_text)
    /\ occ_title o = lit "A"
    /\ section = occ_level o
    /\ lit "\section{A}" = occ_line o
    /\ 1 = _get_section_level_rank (occ_level o).
Proof.
  apply (extracted_entry_from_occurrence scenario_e_text (lit "A")
           {| content := lit "text1"; info_level := section;
              info_line := lit "\section{A}"; info_rank := 1 |}).
  right. by vm_compute.
Defined.

Lemma full_end_skips_deeper (r : nat) (later : list occurrence) (n : nat)
    (o' : occurrence) :
  StronglySorted lt_line_idx later ->
  o' ∈ later ->
  occ_line_idx o' < full_end r later n ->
  r < occ_rank o'.
Proof.
  induction 1 as [|o1 later Hs IH Ho1]; [by intros ?%elem_of_nil|].
  cbn [full_end].
  destruct (Nat.leb_spec (occ_rank o1) r) as [Hle|Hgt].
  - intros [->|Hin]%elem_of_cons Hlt; [lia|].
    rewrite Forall_forall in Ho1. specialize (Ho1 _ Hin).
    unfold lt_line_idx in Ho1. lia.
  - intros [->|Hin]%elem_of_cons Hlt; [done|by apply IH].
Qed.

(** The content that [extract_sections] stores for a title is the trimmed
    join of a run of lines in which every marker is of a strictly deeper
    kind than the title's own marker. *)
Theorem full_hierarchy_holds_deeper_markers_only (doc title : text)
    (fu : section_info) :
  extract_sections doc !! title = Some fu ->
  exists a b,
    content fu = strip (join_nl (slice a b (split_nl doc)))
    /\ forall l k, l ∈ slice a b (split_nl doc) -> has_marker k l ->
         info_rank fu < _get_section_level_rank k.
Proof.
  intros H.
  apply second_pass_lookup_Some in H as [H|(pre & o & later & Hocc & _ & ->)].
  { by rewrite lookup_empty in H. }
  exists (S (occ_line_idx o)),
    (full_end (occ_rank o) later (length (split_nl doc))).
  split; [done|].
  intros l k (i & [Hlo Hhi] & Hi)%elem_of_slice Hm. simpl.
  destruct (scan_sections_marked_line _ i l k Hi Hm) as (o' & Ho' & Hidx & Hrk).
  pose proof (scan_sections_sorted (split_nl doc) 0) as Hs.
  destruct (scan_sections_ranks _ _ _ Ho') as [Hr' _].
  rewrite Hocc in Hs, Ho'.
  apply StronglySorted_app in Hs as (Hpre & _ & Hs).
  apply StronglySorted_cons in Hs as [Hlater Hs].
  apply elem_of_app in Ho' as [Ho'|[->|Ho']%elem_of_cons].
  - specialize (Hpre o' o Ho'). unfold lt_line_idx in Hpre.
    specialize (Hpre ltac:(by left)). lia.
  - lia.
  - pose proof (full_end_skips_deeper _ _ _ _ Hs Ho'
                  ltac:(rewrite Hidx; exact Hhi)). lia.
Qed.

Lemma full_hierarchy_holds_deeper_markers_only_witness :
  exists a b,
    doc_of_lines ["text1"; "\subsection{B}"; " text2"]
    = strip (join_nl (slice a b (split_nl scenario_e_text)))
    /\ forall l k, l ∈ slice a b (split_nl scenario_e_text) ->
         has_marker k l -> 1 < _get_section_level_rank k.
Proof.
  apply (full_hierarchy_holds_deeper_markers_only scenario_e_text (lit "A")
           {| content := doc_of_lines ["text1"; "\subsection{B}"; " text2"];
              info_level := section;
              info_line := lit "\section{A}"; info_rank := 1 |}).
  by vm_compute.
Defined.

(** ** New content entries *)

(** Every entry of [new_sections_content] is turned into exactly one
    record: an operation when its title is located, a section to create
    when it is not; both lists keep the order of the entries. *)
Theorem new_content_entries_partitioned (new_content : text) (inc : bool)
    (entries : list (text * text)) :
  let located := fun en : text * text =>
    is_Some (find_section_in_template new_content en.1 inc) in
  (fun r => (r_new_section r, r_content r))
    <$> (collect_new_sections new_content inc entries).1
  = (fun en => (en.1, strip en.2)) <$> filter located entries
  /\ (collect_new_sections new_content inc entries).2
     = (fun en => (en.1, strip en.2))
         <$> filter (fun en => ~ located en) entries.
Proof.
  intros located.
  induction entries as [|[title c] entries [IH1 IH2]];
    cbn [collect_new_sections]; [done|].
  destruct (collect_new_sections new_content inc entries) as [reps pending].
  simpl in IH1, IH2.
  destruct (find_section_in_template new_content title inc)
    as [[[s e] k]|] eqn:Ef.
  - assert (located (title, c)) as Hl by (unfold located; simpl; by rewrite Ef).
    rewrite filter_cons_True by done.
    rewrite filter_cons_False by (by intros H; apply H).
    cbn [fst snd]. rewrite !fmap_cons. cbn [fst snd r_new_section r_content].
    split; [by f_equal|done].
  - assert (~ located (title, c)) as Hl.
    { unfold located. simpl. rewrite Ef. by intros [? ?]. }
    rewrite filter_cons_False by done.
    rewrite filter_cons_True by done.
    cbn [fst snd]. rewrite !fmap_cons. cbn [fst snd].
    split; [done|by f_equal].
Qed.
